(** * Batched 2D renderer (kaboom, [src/gfx.ts]): a shallow embedding

    The renderer keeps one vertex queue and one index queue, appends the
    geometry of every draw to them and flushes them to the GPU when the batch
    state changes or the queues would overflow.  This file embeds the batch
    queue, the transform stack, the primitive composer and the text layout of
    [gfx.ts] as state-passing functions and proves properties of them.

    Conventions of the embedding.
    - A JavaScript [number] is an exact rational ([Qc]): rounding, [NaN] and
      the infinities are not represented.  Array lengths and the draw-call
      counter are natural numbers.
    - An optional field or argument ([x?: T], [undefined], [null]) is an
      [option T]; [a ?? b] is [default b a]; [a || b] on an optional number
      also takes [b] when the number is [0].
    - A handle (texture, program) is a record that carries the identity of
      the object it stands for, so [===] on handles is equality of records.
    - A uniform set is an object that is handed over and kept by reference
      ([gfx.curUniform = uniform]): a value of type [Uniform] is the identity
      of the object, and the entries the objects have at a given time are in
      the store [uniforms] of the state, which the caller writes
      ([setUniform]) and the renderer reads ([entriesOf]).
    - The WebGL context is a log of the calls made on it ([gl]); a second log
      ([trace]) records the entries into [flush], [drawQuad] and [drawLine],
      so that the order of the calls can be stated.  Neither log is ever
      read by the embedded code. *)

From Stdlib Require Import Ascii QArith Qcanon Lqa.
From stdpp Require Import prelude numbers strings gmap.

Local Open Scope Qc_scope.

(** ** Numbers *)

Abbreviation number := Qc.

Definition num (z : Z) : number := Qc_of_Z z.

(** [arr.length] read as a number. *)
Definition len {A} (l : list A) : number := num (Z.of_nat (length l)).

(** Truthiness of a number: everything but [0]. *)
Definition truthy (v : number) : bool := negb (bool_decide (v = 0)).

(** [v || d] for an optional number. *)
Definition or_num (v : option number) (d : number) : number :=
  match v with
  | Some n => if truthy n then n else d
  | None => d
  end.

(** [Math.max] on two numbers. *)
Definition Math_max (a b : number) : number :=
  if decide (a < b) then b else a.

Definition half : number := 1 / 2.

(** ** Math kernel

    [math.ts] is not among the sources; the value types and the few
    operations the renderer uses are modelled from the specification and
    from the declarations in [types.ts]. *)

Module Vec2.

Record t : Type := mk { x : number; y : number }.

(** Modelled from the spec: [Vec2.add] of the absent [math.ts],
    componentwise sum. *)
Definition add (p q : t) : t := mk (x p + x q) (y p + y q).

(** Modelled from the spec: [Vec2.sub] of the absent [math.ts],
    componentwise difference. *)
Definition sub (p q : t) : t := mk (x p - x q) (y p - y q).

(** Modelled from the spec: [Vec2.scale] of the absent [math.ts] applied to
    a vector, componentwise product. *)
Definition scale (p s : t) : t := mk (x p * x s) (y p * y s).

(** Modelled from the spec: [Vec2.scale] of the absent [math.ts] applied to
    a number, which scales both components. *)
Definition scaleN (p : t) (s : number) : t := scale p (mk s s).

End Vec2.

Abbreviation Vec2 := Vec2.t.

(** The overloads of the constructor declared in [types.ts]:
    [vec2(x, y)], [vec2(xy)] and [vec2(p)]. *)
Definition vec2 (x y : number) : Vec2 := Vec2.mk x y.
Definition vec2N (xy : number) : Vec2 := Vec2.mk xy xy.
Definition vec2V (p : Vec2) : Vec2 := Vec2.mk (Vec2.x p) (Vec2.y p).

Module Vec3.

Record t : Type := mk { x : number; y : number; z : number }.

(** Modelled from the spec: [Vec3.xy] of the absent [math.ts], the
    projection on the first two components. *)
Definition xy (p : t) : Vec2 := vec2 (x p) (y p).

End Vec3.

Abbreviation Vec3 := Vec3.t.
Definition vec3 (x y z : number) : Vec3 := Vec3.mk x y z.

Module Color.
Record t : Type := mk { r : number; g : number; b : number; a : number }.
End Color.

Abbreviation Color := Color.t.
Definition rgba (r g b a : number) : Color := Color.mk r g b a.

Module Quad.
Record t : Type := mk { x : number; y : number; w : number; h : number }.
End Quad.

Abbreviation Quad := Quad.t.
Definition quad (x y w h : number) : Quad := Quad.mk x y w h.

Module Mat4.

(** [m] holds the sixteen entries, column after column, as WebGL reads
    them. *)
Record t : Type := mk { m : list number }.

Definition get (a : t) (i : nat) : number := nth i (m a) 0.

(** Modelled from the spec: [mat4()] of the absent [math.ts] without
    argument, the identity matrix. *)
Definition identity : t :=
  mk [ 1; 0; 0; 0;
       0; 1; 0; 0;
       0; 0; 1; 0;
       0; 0; 0; 1 ].

(** Modelled from the spec: [Mat4.clone] of the absent [math.ts], a matrix
    with a copy of the entries. *)
Definition clone (a : t) : t := mk (m a).

(** Modelled from the spec: [Mat4.mult] of the absent [math.ts], the
    standard product of two 4x4 matrices. *)
Definition mult (a other : t) : t :=
  mk (flat_map (fun i =>
        map (fun j =>
               get a (0 * 4 + j) * get other (i * 4 + 0)
               + get a (1 * 4 + j) * get other (i * 4 + 1)
               + get a (2 * 4 + j) * get other (i * 4 + 2)
               + get a (3 * 4 + j) * get other (i * 4 + 3))
            (seq 0 4))
        (seq 0 4)).

(** Modelled from the spec: [Mat4.translate] of the absent [math.ts],
    composition with a translation matrix. *)
Definition translate (a : t) (p : Vec2) : t :=
  mult a (mk [ 1; 0; 0; 0;
               0; 1; 0; 0;
               0; 0; 1; 0;
               Vec2.x p; Vec2.y p; 0; 1 ]).

(** Modelled from the spec: [Mat4.scale] of the absent [math.ts],
    composition with a scaling matrix. *)
Definition scale (a : t) (s : Vec2) : t :=
  mult a (mk [ Vec2.x s; 0; 0; 0;
               0; Vec2.y s; 0; 0;
               0; 0; 1; 0;
               0; 0; 0; 1 ]).

(** Modelled from the spec: [Mat4.multVec2] of the absent [math.ts], the
    2D affine portion of the matrix applied to a point. *)
Definition multVec2 (a : t) (p : Vec2) : Vec2 :=
  vec2 (Vec2.x p * get a 0 + Vec2.y p * get a 4 + 0 * get a 8 + 1 * get a 12)
       (Vec2.x p * get a 1 + Vec2.y p * get a 5 + 0 * get a 9 + 1 * get a 13).

End Mat4.

Abbreviation Mat4 := Mat4.t.

#[global] Instance Vec2_eq_dec : EqDecision Vec2.
Proof. solve_decision. Defined.
#[global] Instance Vec3_eq_dec : EqDecision Vec3.
Proof. solve_decision. Defined.
#[global] Instance Color_eq_dec : EqDecision Color.
Proof. solve_decision. Defined.
#[global] Instance Quad_eq_dec : EqDecision Quad.
Proof. solve_decision. Defined.
#[global] Instance Mat4_eq_dec : EqDecision Mat4.
Proof. solve_decision. Defined.

(** ** Types of [types.ts] *)

(** [tex_id] and [prog_id] are the identities of the objects. *)
Record GfxTexture : Type := {
  tex_id : nat;
  tex_width : number;
  tex_height : number;
}.

Record GfxProgram : Type := {
  prog_id : nat;
}.

#[global] Instance GfxTexture_eq_dec : EqDecision GfxTexture.
Proof. solve_decision. Defined.
#[global] Instance GfxProgram_eq_dec : EqDecision GfxProgram.
Proof. solve_decision. Defined.

(** [UniformValue]; [GfxProgram.send] also uploads plain numbers. *)
Inductive UniformValue : Type :=
| UNumber (n : number)
| UVec2 (v : Vec2)
| UVec3 (v : Vec3)
| UColor (c : Color)
| UMat4 (a : Mat4).

#[global] Instance UniformValue_eq_dec : EqDecision UniformValue.
Proof. solve_decision. Defined.

(** The entries of a [Record<string, UniformValue>]. *)
Definition UniformEntries : Type := gmap string UniformValue.

(** [Uniform = Record<string, UniformValue>]: an object, known by its
    identity.  [uniform_literal] is the object that the literal [{}] of a
    default value or of an initialiser makes: nothing but the renderer
    refers to it, so it stays empty.  [uniform_object id] is an object of
    the caller's. *)
Inductive Uniform : Type :=
| uniform_literal
| uniform_object (id : nat).

#[global] Instance Uniform_eq_dec : EqDecision Uniform.
Proof. solve_decision. Defined.

(** The object literal [{}]. *)
Definition emptyUniform : Uniform := uniform_literal.

Record Vertex : Type := {
  v_pos : Vec3;
  v_uv : Vec2;
  v_color : Color;
}.

Record GfxFont : Type := {
  font_tex : GfxTexture;
  font_map : gmap string Vec2;
  font_qw : number;
  font_qh : number;
}.

Module Origin.
Inductive t : Type :=
| topleft | top | topright
| left | center | right
| botleft | bot | botright.
End Origin.

(** [Origin | Vec2] *)
Inductive OriginArg : Type :=
| Named (o : Origin.t)
| Point (p : Vec2).

(** [Vec2 | number] *)
Inductive ScaleArg : Type :=
| ScaleNum (n : number)
| ScaleVec (p : Vec2).

(** [DrawQuadConf].  The configurations of [drawTexture], [drawRect],
    [drawRectStroke] and [drawLine] have a subset of these fields and are
    spread into a [DrawQuadConf] by the code; they are given this type with
    the other fields absent. *)
Record DrawQuadConf : Type := {
  c_pos : option Vec2;
  c_width : option number;
  c_height : option number;
  c_scale : option ScaleArg;
  c_rot : option number;
  c_color : option Color;
  c_origin : option OriginArg;
  c_z : option number;
  c_tex : option GfxTexture;
  c_quad : option Quad;
  c_prog : option GfxProgram;
  c_uniform : option Uniform;
}.

(** The object literal [{}] as a configuration. *)
Definition noConf : DrawQuadConf :=
  {| c_pos := None; c_width := None; c_height := None; c_scale := None;
     c_rot := None; c_color := None; c_origin := None; c_z := None;
     c_tex := None; c_quad := None; c_prog := None; c_uniform := None |}.

Record DrawTextConf : Type := {
  t_size : option number;
  t_pos : option Vec2;
  t_scale : option ScaleArg;
  t_rot : option number;
  t_color : option Color;
  t_origin : option OriginArg;
  t_width : option number;
  t_z : option number;
  t_prog : option GfxProgram;
}.

Definition noTextConf : DrawTextConf :=
  {| t_size := None; t_pos := None; t_scale := None; t_rot := None;
     t_color := None; t_origin := None; t_width := None; t_z := None;
     t_prog := None |}.

Record FormattedChar : Type := {
  fc_tex : GfxTexture;
  fc_quad : Quad;
  fc_ch : string;
  fc_pos : Vec2;
  fc_scale : Vec2;
  fc_color : option Color;
  fc_origin : option OriginArg;
  fc_z : option number;
}.

Record FormattedText : Type := {
  ft_width : number;
  ft_height : number;
  ft_chars : list FormattedChar;
}.

Record GfxConf : Type := {
  conf_clearColor : option Color;
  conf_scale : option number;
}.

(** ** Constants and helpers of [gfx.ts] *)

Definition DEF_ORIGIN : OriginArg := Named Origin.topleft.
Definition STRIDE : Z := 9.
Definition QUEUE_COUNT : Z := 65536.
Definition BG_GRID_SIZE : number := num 64.

Definition originPt (orig : OriginArg) : Vec2 :=
  match orig with
  | Named Origin.topleft => vec2 (-1) (-1)
  | Named Origin.top => vec2 0 (-1)
  | Named Origin.topright => vec2 1 (-1)
  | Named Origin.left => vec2 (-1) 0
  | Named Origin.center => vec2 0 0
  | Named Origin.right => vec2 1 0
  | Named Origin.botleft => vec2 (-1) 1
  | Named Origin.bot => vec2 0 1
  | Named Origin.botright => vec2 1 1
  | Point p => p
  end.

(** Modelled from the spec: [deepEq] of the absent [utils.ts], used on
    uniform sets: deep structural equality over the mapping, independent of
    the order of the keys and of the identity of the objects, value-wise for
    numbers, vectors, colors and matrices.  It is given the entries that the
    two objects have when it is called. *)
Definition deepEq (u1 u2 : UniformEntries) : bool :=
  bool_decide (u1 = u2).

(** ** The renderer state *)

Inductive BufferTarget : Type := ARRAY_BUFFER | ELEMENT_ARRAY_BUFFER.

(** The calls made on the WebGL context and on the handles that wrap it. *)
Inductive GlCall : Type :=
| gl_clear
| gl_bindBuffer (target : BufferTarget) (buf : option nat)
| gl_bufferSubData (target : BufferTarget) (data : list number)
| gl_drawElements (count : nat)
| prog_send (p : GfxProgram) (u : UniformEntries)
| prog_bind (p : GfxProgram)
| prog_bindAttribs (p : GfxProgram)
| prog_unbind (p : GfxProgram)
| tex_bind (t : GfxTexture)
| tex_unbind (t : GfxTexture).

(** Entries into the functions whose calls are counted. *)
Inductive Call : Type :=
| call_flush
| call_drawQuad (conf : DrawQuadConf)
| call_drawLine (p1 p2 : Vec2) (conf : DrawQuadConf).

(** [GfxCtx], with the two logs and the store of the uniform objects:
    [uniforms] maps the identity of an object of the caller's to the entries
    it has now (none, while the caller has set none). *)
Record GfxCtx : Type := mkGfxCtx {
  vbuf : nat;
  ibuf : nat;
  vqueue : list number;
  iqueue : list number;
  clearColor : Color;
  defProg : GfxProgram;
  curProg : option GfxProgram;
  defTex : GfxTexture;
  curTex : option GfxTexture;
  bgTex : GfxTexture;
  curUniform : Uniform;
  transform : Mat4;
  transformStack : list Mat4;
  drawCalls : nat;
  lastDrawCalls : nat;
  gl : list GlCall;
  trace : list Call;
  uniforms : gmap nat UniformEntries;
}.

Definition set_vqueue (v : list number) (s : GfxCtx) : GfxCtx :=
  mkGfxCtx (vbuf s) (ibuf s) v (iqueue s) (clearColor s) (defProg s)
    (curProg s) (defTex s) (curTex s) (bgTex s) (curUniform s) (transform s)
    (transformStack s) (drawCalls s) (lastDrawCalls s) (gl s) (trace s) (uniforms s).

Definition set_iqueue (v : list number) (s : GfxCtx) : GfxCtx :=
  mkGfxCtx (vbuf s) (ibuf s) (vqueue s) v (clearColor s) (defProg s)
    (curProg s) (defTex s) (curTex s) (bgTex s) (curUniform s) (transform s)
    (transformStack s) (drawCalls s) (lastDrawCalls s) (gl s) (trace s) (uniforms s).

Definition set_curProg (v : option GfxProgram) (s : GfxCtx) : GfxCtx :=
  mkGfxCtx (vbuf s) (ibuf s) (vqueue s) (iqueue s) (clearColor s) (defProg s)
    v (defTex s) (curTex s) (bgTex s) (curUniform s) (transform s)
    (transformStack s) (drawCalls s) (lastDrawCalls s) (gl s) (trace s) (uniforms s).

Definition set_curTex (v : option GfxTexture) (s : GfxCtx) : GfxCtx :=
  mkGfxCtx (vbuf s) (ibuf s) (vqueue s) (iqueue s) (clearColor s) (defProg s)
    (curProg s) (defTex s) v (bgTex s) (curUniform s) (transform s)
    (transformStack s) (drawCalls s) (lastDrawCalls s) (gl s) (trace s) (uniforms s).

Definition set_curUniform (v : Uniform) (s : GfxCtx) : GfxCtx :=
  mkGfxCtx (vbuf s) (ibuf s) (vqueue s) (iqueue s) (clearColor s) (defProg s)
    (curProg s) (defTex s) (curTex s) (bgTex s) v (transform s)
    (transformStack s) (drawCalls s) (lastDrawCalls s) (gl s) (trace s) (uniforms s).

Definition set_transform (v : Mat4) (s : GfxCtx) : GfxCtx :=
  mkGfxCtx (vbuf s) (ibuf s) (vqueue s) (iqueue s) (clearColor s) (defProg s)
    (curProg s) (defTex s) (curTex s) (bgTex s) (curUniform s) v
    (transformStack s) (drawCalls s) (lastDrawCalls s) (gl s) (trace s) (uniforms s).

Definition set_transformStack (v : list Mat4) (s : GfxCtx) : GfxCtx :=
  mkGfxCtx (vbuf s) (ibuf s) (vqueue s) (iqueue s) (clearColor s) (defProg s)
    (curProg s) (defTex s) (curTex s) (bgTex s) (curUniform s) (transform s)
    v (drawCalls s) (lastDrawCalls s) (gl s) (trace s) (uniforms s).

Definition set_drawCalls (v : nat) (s : GfxCtx) : GfxCtx :=
  mkGfxCtx (vbuf s) (ibuf s) (vqueue s) (iqueue s) (clearColor s) (defProg s)
    (curProg s) (defTex s) (curTex s) (bgTex s) (curUniform s) (transform s)
    (transformStack s) v (lastDrawCalls s) (gl s) (trace s) (uniforms s).

Definition set_lastDrawCalls (v : nat) (s : GfxCtx) : GfxCtx :=
  mkGfxCtx (vbuf s) (ibuf s) (vqueue s) (iqueue s) (clearColor s) (defProg s)
    (curProg s) (defTex s) (curTex s) (bgTex s) (curUniform s) (transform s)
    (transformStack s) (drawCalls s) v (gl s) (trace s) (uniforms s).

(** [issue cs s]: the calls [cs] are made on the WebGL context, in order. *)
Definition issue (cs : list GlCall) (s : GfxCtx) : GfxCtx :=
  mkGfxCtx (vbuf s) (ibuf s) (vqueue s) (iqueue s) (clearColor s) (defProg s)
    (curProg s) (defTex s) (curTex s) (bgTex s) (curUniform s) (transform s)
    (transformStack s) (drawCalls s) (lastDrawCalls s) (gl s ++ cs) (trace s)
    (uniforms s).

(** [enter c s]: the function entry [c] is recorded. *)
Definition enter (c : Call) (s : GfxCtx) : GfxCtx :=
  mkGfxCtx (vbuf s) (ibuf s) (vqueue s) (iqueue s) (clearColor s) (defProg s)
    (curProg s) (defTex s) (curTex s) (bgTex s) (curUniform s) (transform s)
    (transformStack s) (drawCalls s) (lastDrawCalls s) (gl s) (trace s ++ [c])
    (uniforms s).

(** The entries that the object [u] has in the state [s]: what a read of
    its properties gives. *)
Definition entriesOf (s : GfxCtx) (u : Uniform) : UniformEntries :=
  match u with
  | uniform_literal => ∅
  | uniform_object id => default ∅ (uniforms s !! id)
  end.

(** The caller assigns to the properties of its object [id], which has the
    entries [entries] afterwards.  The renderer is not called; it sees the
    new entries where it kept the object. *)
Definition setUniform (id : nat) (entries : UniformEntries) (s : GfxCtx)
    : GfxCtx :=
  mkGfxCtx (vbuf s) (ibuf s) (vqueue s) (iqueue s) (clearColor s) (defProg s)
    (curProg s) (defTex s) (curTex s) (bgTex s) (curUniform s) (transform s)
    (transformStack s) (drawCalls s) (lastDrawCalls s) (gl s) (trace s)
    (<[id := entries]> (uniforms s)).

(** The nine floats of a vertex, as [drawRaw] lays them out. *)
Definition vertexFloats (pt : Vec2) (v : Vertex) : list number :=
  [ Vec2.x pt; Vec2.y pt; Vec3.z (v_pos v);
    Vec2.x (v_uv v); Vec2.y (v_uv v);
    Color.r (v_color v); Color.g (v_color v); Color.b (v_color v);
    Color.a (v_color v) ].

(** ** The functions of [gfxInit] *)

Section Renderer.

(** The configuration given to [gfxInit] and the size of the drawing buffer
    of the WebGL context. *)
Variable gconf : GfxConf.
Variable gl_drawingBufferWidth : number.
Variable gl_drawingBufferHeight : number.

(** [Mat4.rotateZ], [Vec2.dist] and [Vec2.angle] of the absent [math.ts] and
    [Math.PI] rest on trigonometry and square roots, which have no exact
    rational value; they are parameters. *)
Variable Mat4_rotateZ : Mat4 -> number -> Mat4.
Variable Vec2_dist : Vec2 -> Vec2 -> number.
Variable Vec2_angle : Vec2 -> Vec2 -> number.
Variable Math_PI : number.

Definition scale : number := default 1 (conf_scale gconf).

Definition width : number := gl_drawingBufferWidth / scale.

Definition height : number := gl_drawingBufferHeight / scale.

Definition toNDC (pt : Vec2) : Vec2 :=
  vec2 (Vec2.x pt / width * 2 - 1)
       (- Vec2.y pt / height * 2 + 1).

Definition flush (g : GfxCtx) : GfxCtx :=
  let g := enter call_flush g in
  match curTex g, curProg g with
  | Some tex, Some prog =>
      if bool_decide (length (vqueue g) = 0%nat)
         || bool_decide (length (iqueue g) = 0%nat)
      then g
      else
        let g := issue
          [ prog_send prog (entriesOf g (curUniform g));
            gl_bindBuffer ARRAY_BUFFER (Some (vbuf g));
            gl_bufferSubData ARRAY_BUFFER (vqueue g);
            gl_bindBuffer ELEMENT_ARRAY_BUFFER (Some (ibuf g));
            gl_bufferSubData ELEMENT_ARRAY_BUFFER (iqueue g);
            prog_bind prog;
            prog_bindAttribs prog;
            tex_bind tex;
            gl_drawElements (length (iqueue g));
            tex_unbind tex;
            prog_unbind prog;
            gl_bindBuffer ARRAY_BUFFER None;
            gl_bindBuffer ELEMENT_ARRAY_BUFFER None ] g in
        let g := set_iqueue [] g in
        let g := set_vqueue [] g in
        set_drawCalls (S (drawCalls g)) g
  | _, _ => g
  end.

(** [verts.map(...).flat()] in [drawRaw]: the floats of the vertices, their
    positions taken through the transform [t] and to NDC. *)
Definition transformVerts (t : Mat4) (verts : list Vertex) : list number :=
  flat_map (fun v =>
    let pt := toNDC (Mat4.multVec2 t (Vec3.xy (v_pos v))) in
    vertexFloats pt v) verts.

(** The guard of [drawRaw]: flush on texture / shader change and
    overflow. *)
Definition mustFlush (g : GfxCtx) (verts : list Vertex)
    (indices : list number) (tex : GfxTexture) (prog : GfxProgram)
    (uniform : Uniform) : bool :=
  negb (bool_decide (Some tex = curTex g))
  || negb (bool_decide (Some prog = curProg g))
  || negb (deepEq (entriesOf g (curUniform g)) (entriesOf g uniform))
  || bool_decide (QUEUE_COUNT
       < Z.of_nat (length (vqueue g)) + Z.of_nat (length verts) * STRIDE)%Z
  || bool_decide (QUEUE_COUNT
       < Z.of_nat (length (iqueue g)) + Z.of_nat (length indices))%Z.

Definition drawRaw (verts : list Vertex) (indices : list number)
    (tex : option GfxTexture) (prog : option GfxProgram)
    (uniform : option Uniform) (g : GfxCtx) : GfxCtx :=
  let uniform := default emptyUniform uniform in
  let tex := default (defTex g) tex in
  let prog := default (defProg g) prog in
  let g := if mustFlush g verts indices tex prog uniform
           then flush g else g in
  let g := set_curTex (Some tex) g in
  let g := set_curProg (Some prog) g in
  let g := set_curUniform uniform g in
  let nIndices :=
    map (fun i => i + len (vqueue g) / num STRIDE) indices in
  let nVerts := transformVerts (transform g) verts in
  let g := set_iqueue (iqueue g ++ nIndices) g in
  set_vqueue (vqueue g ++ nVerts) g.

Definition pushMatrix (m : Mat4) (g : GfxCtx) : GfxCtx :=
  set_transform (Mat4.clone m) g.

Definition pushTranslate (p : option Vec2) (g : GfxCtx) : GfxCtx :=
  match p with
  | None => g
  | Some p =>
      if bool_decide (Vec2.x p = 0) && bool_decide (Vec2.y p = 0) then g
      else set_transform (Mat4.translate (transform g) p) g
  end.

Definition pushScale (p : option Vec2) (g : GfxCtx) : GfxCtx :=
  match p with
  | None => g
  | Some p =>
      if bool_decide (Vec2.x p = 1) && bool_decide (Vec2.y p = 1) then g
      else set_transform (Mat4.scale (transform g) p) g
  end.

Definition pushRotateZ (a : number) (g : GfxCtx) : GfxCtx :=
  if negb (truthy a) then g
  else set_transform (Mat4_rotateZ (transform g) a) g.

Definition pushTransform (g : GfxCtx) : GfxCtx :=
  set_transformStack (transformStack g ++ [Mat4.clone (transform g)]) g.

(** [Array.pop]: the last element and the rest, when there is one. *)
Definition pop {A} (l : list A) : option (list A * A) :=
  match last l with
  | Some v => Some (removelast l, v)
  | None => None
  end.

Definition popTransform (g : GfxCtx) : GfxCtx :=
  match pop (transformStack g) with
  | Some (rest, top) => set_transform top (set_transformStack rest g)
  | None => g
  end.

(** [vec2(conf.scale ?? 1)] and [vec2(conf.scale || 1)]. *)
Definition vec2S (s : ScaleArg) : Vec2 :=
  match s with
  | ScaleNum n => vec2N n
  | ScaleVec p => vec2V p
  end.

Definition or_scale (s : option ScaleArg) (d : number) : ScaleArg :=
  match s with
  | Some (ScaleNum n) => if truthy n then ScaleNum n else ScaleNum d
  | Some (ScaleVec p) => ScaleVec p
  | None => ScaleNum d
  end.

Definition drawQuad (conf : DrawQuadConf) (g : GfxCtx) : GfxCtx :=
  let g := enter (call_drawQuad conf) g in
  let w := or_num (c_width conf) 0 in
  let h := or_num (c_height conf) 0 in
  let pos := default (vec2 0 0) (c_pos conf) in
  let origin := originPt (default DEF_ORIGIN (c_origin conf)) in
  let offset := Vec2.scale origin (Vec2.scaleN (vec2 w h) (- half)) in
  let scale := vec2S (default (ScaleNum 1) (c_scale conf)) in
  let rot := or_num (c_rot conf) 0 in
  let q := default (quad 0 0 1 1) (c_quad conf) in
  let z := 1 - default 0 (c_z conf) in
  let color := default (rgba 1 1 1 1) (c_color conf) in
  let g := pushTransform g in
  let g := pushTranslate (Some pos) g in
  let g := pushScale (Some scale) g in
  let g := pushRotateZ rot g in
  let g := pushTranslate (Some offset) g in
  let g := drawRaw
    [ {| v_pos := vec3 (- w / 2) (h / 2) z;
         v_uv := vec2 (Quad.x q) (Quad.y q + Quad.h q);
         v_color := color |};
      {| v_pos := vec3 (- w / 2) (- h / 2) z;
         v_uv := vec2 (Quad.x q) (Quad.y q);
         v_color := color |};
      {| v_pos := vec3 (w / 2) (- h / 2) z;
         v_uv := vec2 (Quad.x q + Quad.w q) (Quad.y q);
         v_color := color |};
      {| v_pos := vec3 (w / 2) (h / 2) z;
         v_uv := vec2 (Quad.x q + Quad.w q) (Quad.y q + Quad.h q);
         v_color := color |} ]
    [ 0; 1; num 3; 1; 2; num 3 ]
    (c_tex conf) (c_prog conf) (c_uniform conf) g in
  popTransform g.

Definition drawTexture (tex : GfxTexture) (conf : DrawQuadConf)
    (g : GfxCtx) : GfxCtx :=
  let q := default (quad 0 0 1 1) (c_quad conf) in
  let w := tex_width tex * Quad.w q in
  let h := tex_height tex * Quad.h q in
  drawQuad
    {| c_pos := c_pos conf; c_width := Some w; c_height := Some h;
       c_scale := c_scale conf; c_rot := c_rot conf;
       c_color := c_color conf; c_origin := c_origin conf;
       c_z := c_z conf; c_tex := Some tex; c_quad := Some q;
       c_prog := c_prog conf; c_uniform := c_uniform conf |} g.

Definition drawRect (pos : Vec2) (w h : number) (conf : DrawQuadConf)
    (g : GfxCtx) : GfxCtx :=
  drawQuad
    {| c_pos := Some pos; c_width := Some w; c_height := Some h;
       c_scale := c_scale conf; c_rot := c_rot conf;
       c_color := c_color conf; c_origin := c_origin conf;
       c_z := c_z conf; c_tex := c_tex conf; c_quad := c_quad conf;
       c_prog := c_prog conf; c_uniform := c_uniform conf |} g.

Definition drawLine (p1 p2 : Vec2) (conf : DrawQuadConf)
    (g : GfxCtx) : GfxCtx :=
  let g := enter (call_drawLine p1 p2 conf) g in
  let w := or_num (c_width conf) 1 in
  let h := Vec2_dist p1 p2 in
  let rot := Math_PI / 2 - Vec2_angle p1 p2 in
  drawQuad
    {| c_pos := Some (Vec2.scaleN (Vec2.add p1 p2) half);
       c_width := Some w; c_height := Some h;
       c_scale := c_scale conf; c_rot := Some rot;
       c_color := c_color conf; c_origin := Some (Named Origin.center);
       c_z := c_z conf; c_tex := c_tex conf; c_quad := c_quad conf;
       c_prog := c_prog conf; c_uniform := c_uniform conf |} g.

(** The four corners [p1], [p2], [p3], [p4] computed by
    [drawRectStroke]. *)
Definition strokeCorners (pos : Vec2) (w h : number) (conf : DrawQuadConf)
    : Vec2 * Vec2 * Vec2 * Vec2 :=
  let offset :=
    Vec2.scaleN
      (Vec2.scale (originPt (default DEF_ORIGIN (c_origin conf))) (vec2 w h))
      half in
  let p1 := Vec2.sub (Vec2.add pos (vec2 (- w / 2) (- h / 2))) offset in
  let p2 := Vec2.sub (Vec2.add pos (vec2 (- w / 2) (h / 2))) offset in
  let p3 := Vec2.sub (Vec2.add pos (vec2 (w / 2) (h / 2))) offset in
  let p4 := Vec2.sub (Vec2.add pos (vec2 (w / 2) (- h / 2))) offset in
  (p1, p2, p3, p4).

Definition drawRectStroke (pos : Vec2) (w h : number) (conf : DrawQuadConf)
    (g : GfxCtx) : GfxCtx :=
  let '(p1, p2, p3, p4) := strokeCorners pos w h conf in
  let g := drawLine p1 p2 conf g in
  let g := drawLine p2 p3 conf g in
  let g := drawLine p3 p4 conf g in
  drawLine p4 p1 conf g.

(** *** Text layout *)

(** The line break ["\n"]. *)
Definition NL : string := String "010"%char EmptyString.

(** [text.split] on the empty separator: the characters, each as a string
    of length one. *)
Definition split_chars (text : string) : list string :=
  map (fun c => String c EmptyString) (String.list_ascii_of_string text).

(** [flines[flines.length - 1].push(char)] *)
Definition pushToLast (char : string) (flines : list (list string))
    : list (list string) :=
  match pop flines with
  | Some (rest, line) => rest ++ [line ++ [char]]
  | None => flines
  end.

(** The variables of the measuring loop of [fmtText]. *)
Record Layout : Type := mkLayout {
  curX : number;
  th : number;
  tw : number;
  flines : list (list string);
}.

Definition fmt_gw (font : GfxFont) : number :=
  font_qw font * tex_width (font_tex font).

Definition fmt_gh (font : GfxFont) : number :=
  font_qh font * tex_height (font_tex font).

Definition fmt_scale (font : GfxFont) (conf : DrawTextConf) : Vec2 :=
  let size := or_num (t_size conf) (fmt_gh font) in
  Vec2.scale (vec2N (size / fmt_gh font)) (vec2S (or_scale (t_scale conf) 1)).

(** Width and height of a character cell; [fmt_ch] is the line height. *)
Definition fmt_cw (font : GfxFont) (conf : DrawTextConf) : number :=
  Vec2.x (fmt_scale font conf) * fmt_gw font.

Definition fmt_ch (font : GfxFont) (conf : DrawTextConf) : number :=
  Vec2.y (fmt_scale font conf) * fmt_gh font.

(** Whether [conf.width] makes the line wrap before a character. *)
Definition wraps (wrap : option number) (cw : number) (curX : number)
    : bool :=
  match wrap with
  | Some w => if truthy w then bool_decide (w < curX + cw) else false
  | None => false
  end.

(** One turn of the loop "check new lines and calc area size". *)
Definition layoutStep (wrap : option number) (cw ch : number)
    (st : Layout) (char : string) : Layout :=
  let st :=
    if bool_decide (char = NL) || wraps wrap cw (curX st)
    then mkLayout 0 (th st + ch) (tw st) (flines st ++ [[]])
    else st in
  let st :=
    if negb (bool_decide (char = NL))
    then mkLayout (curX st + cw) (th st) (tw st)
           (pushToLast char (flines st))
    else st in
  mkLayout (curX st) (th st) (Math_max (tw st) (curX st)) (flines st).

Definition fmtLayout (text : string) (font : GfxFont) (conf : DrawTextConf)
    : Layout :=
  fold_left (layoutStep (t_width conf) (fmt_cw font conf) (fmt_ch font conf))
    (split_chars text)
    (mkLayout 0 (fmt_ch font conf) 0 [[]]).

(** The glyphs of line number [ln]. *)
Definition lineChars (font : GfxFont) (conf : DrawTextConf)
    (tw ox oy : number) (offset pos : Vec2) (ln : nat) (line : list string)
    : list FormattedChar :=
  let cw := fmt_cw font conf in
  let ch := fmt_ch font conf in
  let oxl := (tw - len line * cw) * (Vec2.x offset + half) in
  concat (imap (fun cn char =>
    let x := num (Z.of_nat cn) * cw in
    let y := num (Z.of_nat ln) * ch in
    match font_map font !! char with
    | Some qpos =>
        [ {| fc_tex := font_tex font;
             fc_quad := quad (Vec2.x qpos) (Vec2.y qpos)
                          (font_qw font) (font_qh font);
             fc_ch := char;
             fc_pos := vec2 (Vec2.x pos + x + ox + oxl)
                            (Vec2.y pos + y + oy);
             fc_color := t_color conf;
             fc_origin := t_origin conf;
             fc_scale := fmt_scale font conf;
             fc_z := t_z conf |} ]
    | None => []
    end) line).

Definition fmtText (text : string) (font : GfxFont) (conf : DrawTextConf)
    : FormattedText :=
  let cw := fmt_cw font conf in
  let ch := fmt_ch font conf in
  let st := fmtLayout text font conf in
  let tw :=
    match t_width conf with
    | Some w => if truthy w then w else tw st
    | None => tw st
    end in
  let pos :=
    match t_pos conf with
    | Some p => vec2V p
    | None => vec2N 0
    end in
  let offset :=
    Vec2.scaleN (originPt (default DEF_ORIGIN (t_origin conf))) half in
  let ox := - Vec2.x offset * cw - (Vec2.x offset + half) * (tw - cw) in
  let oy := - Vec2.y offset * ch - (Vec2.y offset + half) * (th st - ch) in
  {| ft_width := tw;
     ft_height := th st;
     ft_chars :=
       concat (imap (lineChars font conf tw ox oy offset pos) (flines st)) |}.

Definition drawFmtText (ftext : FormattedText) (g : GfxCtx) : GfxCtx :=
  fold_left (fun g ch =>
    drawQuad
      {| c_tex := Some (fc_tex ch);
         c_width := Some (tex_width (fc_tex ch) * Quad.w (fc_quad ch));
         c_height := Some (tex_height (fc_tex ch) * Quad.h (fc_quad ch));
         c_pos := Some (fc_pos ch);
         c_scale := Some (ScaleVec (fc_scale ch));
         c_color := fc_color ch;
         c_quad := Some (fc_quad ch);
         c_origin := Some (Named Origin.center);
         c_z := fc_z ch;
         c_rot := None; c_prog := None; c_uniform := None |} g)
    (ft_chars ftext) g.

Definition drawText (txt : string) (font : GfxFont) (conf : DrawTextConf)
    (g : GfxCtx) : GfxCtx :=
  drawFmtText (fmtText txt font conf) g.

(** *** Frame lifecycle *)

Definition frameStart (g : GfxCtx) : GfxCtx :=
  let g := issue [gl_clear] g in
  let g :=
    match conf_clearColor gconf with
    | None =>
        drawQuad
          {| c_width := Some width;
             c_height := Some height;
             c_quad := Some (quad 0 0 (width * scale / BG_GRID_SIZE)
                                      (height * scale / BG_GRID_SIZE));
             c_tex := Some (bgTex g);
             c_pos := None; c_scale := None; c_rot := None; c_color := None;
             c_origin := None; c_z := None; c_prog := None;
             c_uniform := None |} g
    | Some _ => g
    end in
  let g := set_drawCalls 0 g in
  let g := set_transformStack [] g in
  set_transform Mat4.identity g.

Definition frameEnd (g : GfxCtx) : GfxCtx :=
  let g := flush g in
  set_lastDrawCalls (drawCalls g) g.

(** The context built by [gfxInit], before its first [frameStart]: the
    default program, the 1x1 white texture and the 2x2 background texture
    are the first objects created. *)
Definition initCtx : GfxCtx :=
  let defProg := {| prog_id := 0 |} in
  let emptyTex := {| tex_id := 0; tex_width := 1; tex_height := 1 |} in
  let bgTex := {| tex_id := 1; tex_width := 2; tex_height := 2 |} in
  {| drawCalls := 0; lastDrawCalls := 0;
     defProg := defProg; curProg := Some defProg;
     defTex := emptyTex; curTex := Some emptyTex;
     curUniform := emptyUniform;
     vbuf := 0; ibuf := 1;
     vqueue := []; iqueue := [];
     transform := Mat4.identity; transformStack := [];
     clearColor := default (rgba 0 0 0 1) (conf_clearColor gconf);
     bgTex := bgTex;
     gl := []; trace := []; uniforms := ∅ |}.

Definition gfxInit : GfxCtx := frameEnd (frameStart initCtx).

(** ** Notions used in the statements *)

(** Number of entries into [flush] recorded so far. *)
Definition is_flush (c : Call) : bool :=
  match c with
  | call_flush => true
  | _ => false
  end.

Definition flushCalls (g : GfxCtx) : nat :=
  length (List.filter is_flush (trace g)).

(** The end points of the [drawLine] calls recorded so far, in order. *)
Definition lineCalls (tr : list Call) : list (Vec2 * Vec2) :=
  omap (fun c =>
    match c with
    | call_drawLine p1 p2 _ => Some (p1, p2)
    | _ => None
    end) tr.

(** The index counts of the indexed draw calls in a list of WebGL calls. *)
Definition drawElementsCounts (cs : list GlCall) : list nat :=
  omap (fun c =>
    match c with
    | gl_drawElements n => Some n
    | _ => None
    end) cs.

(** What makes [drawRaw] flush, as a proposition: the texture or the
    program is another object than the active one, the uniform set is not
    structurally equal to the active one, or one of the queues would
    overflow. *)
Definition FlushNeeded (g : GfxCtx) (verts : list Vertex)
    (indices : list number) (tex : GfxTexture) (prog : GfxProgram)
    (uniform : Uniform) : Prop :=
  curTex g ≠ Some tex
  ∨ curProg g ≠ Some prog
  ∨ entriesOf g (curUniform g) ≠ entriesOf g uniform
  ∨ (QUEUE_COUNT
      < Z.of_nat (length (vqueue g)) + Z.of_nat (length verts) * STRIDE)%Z
  ∨ (QUEUE_COUNT
      < Z.of_nat (length (iqueue g)) + Z.of_nat (length indices))%Z.

Definition Overflows (g : GfxCtx) (verts : list Vertex)
    (indices : list number) : Prop :=
  (QUEUE_COUNT
    < Z.of_nat (length (vqueue g)) + Z.of_nat (length verts) * STRIDE)%Z
  ∨ (QUEUE_COUNT
      < Z.of_nat (length (iqueue g)) + Z.of_nat (length indices))%Z.

(** A batch is in progress or none is: a texture and a program are bound
    and the two queues are empty together. *)
Definition batchReady (g : GfxCtx) : Prop :=
  is_Some (curTex g) ∧ is_Some (curProg g)
  ∧ (vqueue g = [] ↔ iqueue g = []).

(** The invariant of the queues: whole vertices only, and every index
    names a vertex of the queue. *)
Definition queueInv (g : GfxCtx) : Prop :=
  (length (vqueue g) `mod` Z.to_nat STRIDE = 0)%nat
  ∧ Forall (fun i => ∃ k : nat,
        i = num (Z.of_nat k)
        ∧ (k < length (vqueue g) `div` Z.to_nat STRIDE)%nat)
      (iqueue g).

(** Indices local to an emit of [n] vertices. *)
Definition localIndices (n : nat) (indices : list number) : Prop :=
  Forall (fun i => ∃ k : nat, i = num (Z.of_nat k) ∧ (k < n)%nat) indices.

(** The states the exported operations can reach from [gfxInit], the
    caller writing to its uniform objects in between. *)
Inductive reachable : GfxCtx -> Prop :=
| reach_init : reachable gfxInit
| reach_drawTexture tex conf g :
    reachable g -> reachable (drawTexture tex conf g)
| reach_drawText txt font conf g :
    reachable g -> reachable (drawText txt font conf g)
| reach_drawFmtText ftext g :
    reachable g -> reachable (drawFmtText ftext g)
| reach_drawRect pos w h conf g :
    reachable g -> reachable (drawRect pos w h conf g)
| reach_drawRectStroke pos w h conf g :
    reachable g -> reachable (drawRectStroke pos w h conf g)
| reach_drawLine p1 p2 conf g :
    reachable g -> reachable (drawLine p1 p2 conf g)
| reach_frameStart g : reachable g -> reachable (frameStart g)
| reach_frameEnd g : reachable g -> reachable (frameEnd g)
| reach_pushTransform g : reachable g -> reachable (pushTransform g)
| reach_popTransform g : reachable g -> reachable (popTransform g)
| reach_pushMatrix m g : reachable g -> reachable (pushMatrix m g)
| reach_setUniform id entries g :
    reachable g -> reachable (setUniform id entries g).

(** An operation that leaves the active transform and the stack as they
    were. *)
Definition keepsTransform (f : GfxCtx -> GfxCtx) : Prop :=
  ∀ g, transform (f g) = transform g
       ∧ transformStack (f g) = transformStack g.

(** The calls one effective [flush] makes on the WebGL context. *)
Definition flushGl (g : GfxCtx) (tex : GfxTexture) (prog : GfxProgram)
    : list GlCall :=
  [ prog_send prog (entriesOf g (curUniform g));
    gl_bindBuffer ARRAY_BUFFER (Some (vbuf g));
    gl_bufferSubData ARRAY_BUFFER (vqueue g);
    gl_bindBuffer ELEMENT_ARRAY_BUFFER (Some (ibuf g));
    gl_bufferSubData ELEMENT_ARRAY_BUFFER (iqueue g);
    prog_bind prog;
    prog_bindAttribs prog;
    tex_bind tex;
    gl_drawElements (length (iqueue g));
    tex_unbind tex;
    prog_unbind prog;
    gl_bindBuffer ARRAY_BUFFER None;
    gl_bindBuffer ELEMENT_ARRAY_BUFFER None ].

(** Geometry is waiting in the queues with a texture and a program bound:
    the state in which [flush] draws. *)
Definition batchQueued (g : GfxCtx) : Prop :=
  is_Some (curTex g) ∧ is_Some (curProg g)
  ∧ vqueue g ≠ [] ∧ iqueue g ≠ [].

(** From [g] to [g'] nothing is drawn and the geometry of an emit joins
    what is queued: no call is made on the WebGL context, no draw call is
    counted, and the queues of [g] are kept and extended by the vertices,
    taken through the active transform, and by the indices, offset by the
    number of vertices queued before. *)
Definition appendsOnly (g : GfxCtx) (verts : list Vertex)
    (indices : list number) (g' : GfxCtx) : Prop :=
  gl g' = gl g
  ∧ drawCalls g' = drawCalls g
  ∧ vqueue g' = vqueue g ++ transformVerts (transform g) verts
  ∧ iqueue g'
    = iqueue g ++ map (fun i => i + len (vqueue g) / num STRIDE) indices.

(** From [g] to [g'] the queued batch is drawn and the geometry of an emit
    starts a new one: the calls of one effective [flush] are made on the
    WebGL context, with the texture, the program, the uniform entries and
    the queues of [g]; among them is one indexed draw call, over all the
    indices queued; one draw call is counted; and the queues hold the
    geometry of the emit and nothing else. *)
Definition drawsThenAppends (g : GfxCtx) (verts : list Vertex)
    (indices : list number) (g' : GfxCtx) : Prop :=
  (∃ t0 p0, curTex g = Some t0 ∧ curProg g = Some p0
     ∧ gl g' = gl g ++ flushGl g t0 p0)
  ∧ drawElementsCounts (gl g')
    = drawElementsCounts (gl g) ++ [length (iqueue g)]
  ∧ drawCalls g' = S (drawCalls g)
  ∧ vqueue g' = transformVerts (transform g) verts
  ∧ iqueue g' = indices.

(** What the invariants of the queues depend on. *)
Definition batchView (g : GfxCtx)
    : list number * list number * option GfxTexture * option GfxProgram :=
  (vqueue g, iqueue g, curTex g, curProg g).

(** The indices of the two triangles of a quad. *)
Definition quadIndices : list number := [ 0; 1; num 3; 1; 2; num 3 ].

(** The NDC position of every vertex in a run of vertex floats. *)
Fixpoint ndcCoords (floats : list number) : list Vec2 :=
  match floats with
  | x :: y :: _ :: _ :: _ :: _ :: _ :: _ :: _ :: rest =>
      vec2 x y :: ndcCoords rest
  | _ => []
  end.

(** The last [n] elements of a list. *)
Definition lastN {A} (n : nat) (l : list A) : list A :=
  drop (length l - n) l.

(** The NDC positions of the last [n] vertices of the vertex queue. *)
Definition lastVertices (n : nat) (g : GfxCtx) : list Vec2 :=
  ndcCoords (lastN (n * Z.to_nat STRIDE) (vqueue g)).

(** The corners of the square of centre [c] and half-extent [e], in the
    order in which [drawQuad] emits the corners of a quad. *)
Definition squareCorners (c : Vec2) (e : number) : list Vec2 :=
  [ vec2 (Vec2.x c - e) (Vec2.y c - e);
    vec2 (Vec2.x c - e) (Vec2.y c + e);
    vec2 (Vec2.x c + e) (Vec2.y c + e);
    vec2 (Vec2.x c + e) (Vec2.y c - e) ].

(** The points [pts] are the corners of the square of centre [c] and
    half-extent [e]. *)
Definition CentredSquare (c : Vec2) (e : number) (pts : list Vec2) : Prop :=
  length pts = 4%nat ∧ ∀ p, p ∈ pts ↔ p ∈ squareCorners c e.

Definition tenth : number := 1 / num 10.

(** The configuration of a quad of 10 by 10 anchored by its centre at
    (0, 0) and not rotated; the other fields are free. *)
Definition centredQuadConf (color : option Color) (z : option number)
    (tex : option GfxTexture) (q : option Quad) (prog : option GfxProgram)
    (uniform : option Uniform) : DrawQuadConf :=
  {| c_pos := Some (vec2 0 0); c_width := Some (num 10);
     c_height := Some (num 10); c_scale := None; c_rot := Some 0;
     c_color := color; c_origin := Some (Named Origin.center); c_z := z;
     c_tex := tex; c_quad := q; c_prog := prog; c_uniform := uniform |}.

(** The sides of a rectangle on the screen, where y grows downward. *)
Inductive Side : Type := side_top | side_right | side_bottom | side_left.

(** The rectangle of width [w] and height [h] whose anchor [origin] lies at
    [pos]: the abscissas of its left and right sides and the ordinates of
    its top and bottom sides. *)
Record Bounds : Type := mkBounds {
  b_left : number;
  b_top : number;
  b_right : number;
  b_bottom : number;
}.

Definition rectBounds (pos : Vec2) (w h : number) (origin : Vec2) : Bounds :=
  let cx := Vec2.x pos - Vec2.x origin * w * half in
  let cy := Vec2.y pos - Vec2.y origin * h * half in
  mkBounds (cx - w / 2) (cy - h / 2) (cx + w / 2) (cy + h / 2).

(** The two corners a side joins. *)
Definition sideEnds (b : Bounds) (s : Side) : Vec2 * Vec2 :=
  match s with
  | side_top => (vec2 (b_left b) (b_top b), vec2 (b_right b) (b_top b))
  | side_right => (vec2 (b_right b) (b_top b), vec2 (b_right b) (b_bottom b))
  | side_bottom =>
      (vec2 (b_left b) (b_bottom b), vec2 (b_right b) (b_bottom b))
  | side_left => (vec2 (b_left b) (b_top b), vec2 (b_left b) (b_bottom b))
  end.

(** The segment [e] is the side [s], drawn in one direction or the
    other. *)
Definition isSide (b : Bounds) (s : Side) (e : Vec2 * Vec2) : Prop :=
  e = sideEnds b s ∨ (e.2, e.1) = sideEnds b s.

(** Four segments of which each starts where the one before ends. *)
Definition closedOutline (e1 e2 e3 e4 : Vec2 * Vec2) : Prop :=
  e1.2 = e2.1 ∧ e2.2 = e3.1 ∧ e3.2 = e4.1 ∧ e4.2 = e1.1.

(** [drawRectStroke] makes exactly four calls of [drawLine], which draw the
    sides [s1], [s2], [s3], [s4] in this order and form a closed outline. *)
Definition strokeOrder (s1 s2 s3 s4 : Side) (pos : Vec2) (w h : number)
    (conf : DrawQuadConf) (g : GfxCtx) : Prop :=
  let b := rectBounds pos w h (originPt (default DEF_ORIGIN (c_origin conf))) in
  ∃ e1 e2 e3 e4,
    lineCalls (trace (drawRectStroke pos w h conf g))
    = lineCalls (trace g) ++ [e1; e2; e3; e4]
    ∧ isSide b s1 e1 ∧ isSide b s2 e2 ∧ isSide b s3 e3 ∧ isSide b s4 e4
    ∧ closedOutline e1 e2 e3 e4.

(** The greatest width of a line, a line of [n] characters being [n]
    cells of width [cw] wide; [0] when every line is empty. *)
Definition maxLineWidth (cw : number) (lines : list (list string)) : number :=
  fold_left (fun acc line => Math_max acc (len line * cw)) lines 0.

(** What the measuring loop of [fmtText] maintains: there is a current
    line, the cursor is at its end, [tw] is the greatest width of a line and
    [th] is the number of lines times the line height. *)
Definition LayoutInv (cw ch : number) (st : Layout) : Prop :=
  ∃ init cur,
    flines st = init ++ [cur]
    ∧ curX st = len cur * cw
    ∧ tw st = maxLineWidth cw (flines st)
    ∧ th st = len (flines st) * ch.

(** The character [c] has an entry in the character map of the font. *)
Definition hasGlyph (font : GfxFont) (c : string) : Prop :=
  is_Some (font_map font !! c).

(** The texts ["ab"], ["a\nb"] and ["az"]. *)
Definition text_ab : string := "ab".
Definition text_a_nl_b : string :=
  String "a" (String "010" (String "b" EmptyString)).
Definition text_az : string := "az".

(** ** The flush engine *)

Lemma length_zero_nil {A} (l : list A) :
  bool_decide (length l = 0%nat) = true ↔ l = [].
Proof.
  rewrite bool_decide_eq_true. destruct l; simpl; split; congruence.
Qed.

Lemma flush_noop g :
  vqueue g = [] ∨ iqueue g = [] ∨ curTex g = None ∨ curProg g = None ->
  flush g = enter call_flush g.
Proof.
  intros H. unfold flush. cbn.
  destruct (curTex g) as [tex|]; [|done].
  destruct (curProg g) as [prog|]; [|done].
  destruct H as [H|[H|[H|H]]]; try done.
  - by rewrite H.
  - rewrite H. cbn. by rewrite orb_true_r.
Qed.

Lemma flush_effective g tex prog :
  curTex g = Some tex -> curProg g = Some prog ->
  vqueue g ≠ [] -> iqueue g ≠ [] ->
  flush g =
    set_drawCalls (S (drawCalls g))
      (set_vqueue []
         (set_iqueue [] (issue (flushGl g tex prog) (enter call_flush g)))).
Proof.
  intros Ht Hp Hv Hi. unfold flush. cbn. rewrite Ht, Hp.
  destruct (vqueue g) as [|a v] eqn:Ev; [done|].
  destruct (iqueue g) as [|b i] eqn:Ei; [done|].
  cbn. unfold flushGl. by rewrite Ev, Ei.
Qed.

(** [flush] either does nothing or empties both queues. *)
Lemma flush_cases g :
  flush g = enter call_flush g
  ∨ (vqueue g ≠ [] ∧ iqueue g ≠ []
     ∧ ∃ tex prog, curTex g = Some tex ∧ curProg g = Some prog
       ∧ flush g =
           set_drawCalls (S (drawCalls g))
             (set_vqueue []
                (set_iqueue []
                   (issue (flushGl g tex prog) (enter call_flush g))))).
Proof.
  destruct (curTex g) as [tex|] eqn:Ht; [|left; apply flush_noop; auto].
  destruct (curProg g) as [prog|] eqn:Hp; [|left; apply flush_noop; auto].
  destruct (vqueue g) as [|a v] eqn:Ev; [left; apply flush_noop; auto|].
  destruct (iqueue g) as [|b i] eqn:Ei; [left; apply flush_noop; auto|].
  right. rewrite <- Ev, <- Ei.
  assert (vqueue g ≠ []) by (rewrite Ev; done).
  assert (iqueue g ≠ []) by (rewrite Ei; done).
  repeat split; try done. exists tex, prog. repeat split.
  by apply flush_effective.
Qed.

Lemma flush_trace g : trace (flush g) = trace g ++ [call_flush].
Proof.
  destruct (flush_cases g) as [->|(_ & _ & tex & prog & _ & _ & ->)]; done.
Qed.

Lemma flush_frame g :
  transform (flush g) = transform g
  ∧ transformStack (flush g) = transformStack g
  ∧ curTex (flush g) = curTex g
  ∧ curProg (flush g) = curProg g
  ∧ curUniform (flush g) = curUniform g
  ∧ defTex (flush g) = defTex g
  ∧ defProg (flush g) = defProg g
  ∧ bgTex (flush g) = bgTex g.
Proof.
  destruct (flush_cases g) as [->|(_ & _ & tex & prog & _ & _ & ->)]; done.
Qed.

Lemma flush_queues g :
  (vqueue (flush g) = vqueue g ∧ iqueue (flush g) = iqueue g)
  ∨ (vqueue (flush g) = [] ∧ iqueue (flush g) = []).
Proof.
  destruct (flush_cases g) as [->|(_ & _ & tex & prog & _ & _ & ->)];
    [left|right]; done.
Qed.

Lemma flushCalls_enter_flush g :
  flushCalls (enter call_flush g) = S (flushCalls g).
Proof.
  unfold flushCalls. cbn. rewrite List.filter_app, length_app. cbn. lia.
Qed.

Lemma flushCalls_flush g : flushCalls (flush g) = S (flushCalls g).
Proof.
  unfold flushCalls. rewrite flush_trace, List.filter_app, length_app.
  cbn. lia.
Qed.

Lemma drawElementsCounts_app cs1 cs2 :
  drawElementsCounts (cs1 ++ cs2)
  = drawElementsCounts cs1 ++ drawElementsCounts cs2.
Proof. unfold drawElementsCounts. apply omap_app. Qed.

(** C3: [flush] does nothing (apart from being entered) when a queue is
    empty or no texture or program is bound; otherwise it issues exactly one
    indexed draw call, over the whole index queue, empties both queues and
    adds one to the draw-call counter. *)
Theorem flush_noop_or_one_draw_call g :
  (vqueue g = [] ∨ iqueue g = [] ∨ curTex g = None ∨ curProg g = None ->
     flush g = enter call_flush g
     ∧ vqueue (flush g) = vqueue g ∧ iqueue (flush g) = iqueue g
     ∧ curTex (flush g) = curTex g ∧ curProg (flush g) = curProg g
     ∧ curUniform (flush g) = curUniform g
     ∧ drawCalls (flush g) = drawCalls g
     ∧ gl (flush g) = gl g)
  ∧ (vqueue g ≠ [] -> iqueue g ≠ [] ->
     is_Some (curTex g) -> is_Some (curProg g) ->
     drawElementsCounts (gl (flush g))
       = drawElementsCounts (gl g) ++ [length (iqueue g)]
     ∧ vqueue (flush g) = [] ∧ iqueue (flush g) = []
     ∧ drawCalls (flush g) = S (drawCalls g)).
Proof.
  split.
  - intros H. rewrite (flush_noop g H). done.
  - intros Hv Hi [tex Ht] [prog Hp].
    rewrite (flush_effective g tex prog Ht Hp Hv Hi). cbn.
    rewrite drawElementsCounts_app. done.
Qed.

(** ** The batch queue *)

Lemma mustFlush_iff g verts indices tex prog uniform :
  mustFlush g verts indices tex prog uniform = true
  ↔ FlushNeeded g verts indices tex prog uniform.
Proof.
  unfold mustFlush, FlushNeeded, deepEq.
  rewrite !orb_true_iff, !negb_true_iff, !bool_decide_eq_false,
    !bool_decide_eq_true.
  split.
  - intros [[[[H|H]|H]|H]|H]; auto 6.
  - intros [H|[H|[H|[H|H]]]]; auto 6.
Qed.

Lemma mustFlush_false_iff g verts indices tex prog uniform :
  mustFlush g verts indices tex prog uniform = false
  ↔ ¬ FlushNeeded g verts indices tex prog uniform.
Proof.
  rewrite <- mustFlush_iff.
  destruct (mustFlush g verts indices tex prog uniform); split; try done.
Qed.

Lemma Overflows_FlushNeeded g verts indices tex prog uniform :
  Overflows g verts indices -> FlushNeeded g verts indices tex prog uniform.
Proof. unfold Overflows, FlushNeeded. intros [H|H]; auto 6. Qed.

(** [drawRaw], with the state [g0] in which the appending starts. *)
Lemma drawRaw_eq verts indices tex prog uniform g :
  let uniform' := default emptyUniform uniform in
  let tex' := default (defTex g) tex in
  let prog' := default (defProg g) prog in
  let g0 := if mustFlush g verts indices tex' prog' uniform'
            then flush g else g in
  drawRaw verts indices tex prog uniform g
  = set_vqueue (vqueue g0 ++ transformVerts (transform g0) verts)
      (set_iqueue
         (iqueue g0
          ++ map (fun i => i + len (vqueue g0) / num STRIDE) indices)
         (set_curUniform uniform'
            (set_curProg (Some prog') (set_curTex (Some tex') g0)))).
Proof. reflexivity. Qed.

Lemma drawRaw_trace verts indices tex prog uniform g :
  trace (drawRaw verts indices tex prog uniform g)
  = trace g
    ++ (if mustFlush g verts indices (default (defTex g) tex)
             (default (defProg g) prog) (default emptyUniform uniform)
        then [call_flush] else []).
Proof.
  rewrite drawRaw_eq. cbn.
  destruct (mustFlush _ _ _ _ _ _).
  - apply flush_trace.
  - by rewrite app_nil_r.
Qed.

Lemma flushCalls_drawRaw verts indices tex prog uniform g :
  flushCalls (drawRaw verts indices tex prog uniform g)
  = (flushCalls g
     + (if mustFlush g verts indices (default (defTex g) tex)
             (default (defProg g) prog) (default emptyUniform uniform)
        then 1 else 0))%nat.
Proof.
  unfold flushCalls. rewrite drawRaw_trace, List.filter_app, length_app.
  by destruct (mustFlush _ _ _ _ _ _).
Qed.

Lemma drawRaw_frame verts indices tex prog uniform g :
  transform (drawRaw verts indices tex prog uniform g) = transform g
  ∧ transformStack (drawRaw verts indices tex prog uniform g)
    = transformStack g
  ∧ defTex (drawRaw verts indices tex prog uniform g) = defTex g
  ∧ defProg (drawRaw verts indices tex prog uniform g) = defProg g
  ∧ bgTex (drawRaw verts indices tex prog uniform g) = bgTex g.
Proof.
  rewrite drawRaw_eq. cbn.
  destruct (mustFlush _ _ _ _ _ _); [|done].
  destruct (flush_frame g) as (? & ? & ? & ? & ? & ? & ? & ?). done.
Qed.


Lemma len_nil {A} : len (@nil A) = 0.
Proof. unfold len, num. cbn. apply Z2Qc_inj_0. Qed.

Lemma num_STRIDE_neq_0 : num STRIDE ≠ 0.
Proof.
  unfold num. rewrite <- Z2Qc_inj_0. intros H%Z2Qc_inj. discriminate.
Qed.

Lemma offset_empty_queue (indices : list number) :
  map (fun i => i + len (@nil number) / num STRIDE) indices = indices.
Proof.
  rewrite len_nil. unfold Qcdiv. rewrite Qcmult_0_l.
  induction indices as [|i l IH]; cbn; [done|].
  by rewrite IH, Qcplus_0_r.
Qed.

(** The vertex count read by [drawRaw] is the whole number of vertices of a
    queue that holds whole vertices. *)
Lemma len_div_stride {A} (l : list A) :
  (length l `mod` 9 = 0)%nat ->
  len l / num STRIDE = num (Z.of_nat (length l `div` 9)).
Proof.
  intros H. apply Nat.Div0.div_exact in H.
  unfold len. rewrite H at 1.
  rewrite Nat2Z.inj_mul. unfold num. rewrite Z2Qc_inj_mul.
  change (Z.of_nat 9) with STRIDE.
  rewrite Qcmult_comm. apply Qcdiv_mult_l. apply num_STRIDE_neq_0.
Qed.

Lemma transformVerts_length t verts :
  length (transformVerts t verts) = (9 * length verts)%nat.
Proof.
  unfold transformVerts. induction verts as [|v l IH]; cbn; [done|].
  rewrite IH. lia.
Qed.


Lemma flush_empties g :
  batchReady g -> vqueue (flush g) = [] ∧ iqueue (flush g) = [].
Proof.
  intros ([tex Ht] & [prog Hp] & Hq).
  destruct (vqueue g) as [|a v] eqn:Ev.
  - assert (iqueue g = []) as Ei by (by apply Hq).
    rewrite flush_noop by auto. cbn. by rewrite Ev, Ei.
  - assert (iqueue g ≠ []) as Hi.
    { intros Hi. apply Hq in Hi. done. }
    rewrite (flush_effective g tex prog); try done. by rewrite Ev.
Qed.

(** When the guard holds, [flush] is entered once and the geometry is
    appended to what [flush] left. *)
Lemma drawRaw_flush_count verts indices tex prog uniform g :
  FlushNeeded g verts indices (default (defTex g) tex)
    (default (defProg g) prog) (default emptyUniform uniform) ->
  let g' := drawRaw verts indices tex prog uniform g in
  flushCalls g' = S (flushCalls g)
  ∧ vqueue g' = vqueue (flush g) ++ transformVerts (transform g) verts
  ∧ iqueue g'
    = iqueue (flush g)
      ++ map (fun i => i + len (vqueue (flush g)) / num STRIDE) indices.
Proof.
  intros H%mustFlush_iff g'. subst g'.
  rewrite flushCalls_drawRaw, drawRaw_eq. cbn. rewrite H.
  destruct (flush_frame g) as (-> & _). split; [lia|done].
Qed.






(** An emit that does not flush, or flushes when nothing is there to be
    drawn, makes no call on the WebGL context and appends to the queues. *)
Lemma drawRaw_appends verts indices tex prog uniform g :
  ¬ batchQueued g
  ∨ ¬ FlushNeeded g verts indices (default (defTex g) tex)
        (default (defProg g) prog) (default emptyUniform uniform) ->
  appendsOnly g verts indices (drawRaw verts indices tex prog uniform g).
Proof.
  intros H. unfold appendsOnly. rewrite drawRaw_eq. cbn zeta.
  assert ((if mustFlush g verts indices (default (defTex g) tex)
                (default (defProg g) prog) (default emptyUniform uniform)
           then flush g else g) = g
          ∨ (if mustFlush g verts indices (default (defTex g) tex)
                  (default (defProg g) prog) (default emptyUniform uniform)
             then flush g else g) = enter call_flush g) as [-> | ->];
    [|done|done].
  destruct (mustFlush _ _ _ _ _ _) eqn:E; [|by left].
  right. destruct H as [H|H].
  - destruct (flush_cases g)
      as [Hf|(Hv & Hi & tex0 & prog0 & Ht & Hp & _)]; [done|].
    exfalso. apply H. unfold batchQueued. rewrite Ht, Hp. eauto.
  - by apply mustFlush_false_iff in H; rewrite H in E.
Qed.

(** An emit that flushes while geometry is queued has it drawn first, and
    starts the queues afresh. *)
Lemma drawRaw_draws verts indices tex prog uniform g :
  batchQueued g ->
  FlushNeeded g verts indices (default (defTex g) tex)
    (default (defProg g) prog) (default emptyUniform uniform) ->
  drawsThenAppends g verts indices (drawRaw verts indices tex prog uniform g).
Proof.
  intros ([t0 Ht] & [p0 Hp] & Hv & Hi) Hneed.
  assert (gl (drawRaw verts indices tex prog uniform g)
            = gl g ++ flushGl g t0 p0
          ∧ drawCalls (drawRaw verts indices tex prog uniform g)
            = S (drawCalls g)
          ∧ vqueue (drawRaw verts indices tex prog uniform g)
            = transformVerts (transform g) verts
          ∧ iqueue (drawRaw verts indices tex prog uniform g) = indices)
    as (H1 & H2 & H3 & H4).
  { rewrite drawRaw_eq. cbn zeta.
    rewrite (proj2 (mustFlush_iff _ _ _ _ _ _) Hneed).
    rewrite (flush_effective g t0 p0 Ht Hp Hv Hi).
    cbn [gl drawCalls vqueue iqueue transform set_vqueue set_iqueue
         set_curUniform set_curProg set_curTex set_drawCalls issue enter app].
    by rewrite offset_empty_queue. }
  unfold drawsThenAppends. split; [by exists t0, p0|].
  split; [|done]. rewrite H1, drawElementsCounts_app. done.
Qed.



(** C2: an emit that would overflow a queue enters [flush] exactly once
    before it appends; what was queued is handed to the WebGL context whole
    and drawn in one indexed draw call over all the indices queued; all of
    the geometry of the emit is appended, and afterwards the queues hold
    that geometry and nothing else.  When nothing was queued, no call is
    made on the context.  The state is one in which a batch is in progress
    or none is, as every state reached through the exported operations is
    ([reachable_batchReady]). *)
Theorem drawRaw_overflow g verts indices tex prog uniform :
  batchReady g ->
  Overflows g verts indices ->
  let g' := drawRaw verts indices tex prog uniform g in
  flushCalls g' = S (flushCalls g)
  ∧ vqueue g' = transformVerts (transform g) verts
  ∧ iqueue g' = indices
  ∧ length (iqueue g') = length indices
  ∧ Z.of_nat (length (vqueue g')) = (Z.of_nat (length verts) * STRIDE)%Z
  ∧ (vqueue g ≠ [] -> drawCalls g' = S (drawCalls g))
  ∧ (vqueue g ≠ [] ->
     drawElementsCounts (gl g')
     = drawElementsCounts (gl g) ++ [length (iqueue g)])
  ∧ (vqueue g ≠ [] ->
     (∃ t0 p0, curTex g = Some t0 ∧ curProg g = Some p0
        ∧ gl g' = gl g ++ flushGl g t0 p0)
     ∧ gl_bufferSubData ARRAY_BUFFER (vqueue g) ∈ gl g'
     ∧ gl_bufferSubData ELEMENT_ARRAY_BUFFER (iqueue g) ∈ gl g')
  ∧ (vqueue g = [] -> gl g' = gl g ∧ drawCalls g' = drawCalls g).
Proof.
  intros Hb Hov g'.
  assert (FlushNeeded g verts indices (default (defTex g) tex)
            (default (defProg g) prog) (default emptyUniform uniform))
    as Hneed by (by apply Overflows_FlushNeeded).
  assert (vqueue g ≠ [] -> drawsThenAppends g verts indices g') as Hdraw.
  { intros Hv. apply drawRaw_draws; [|done].
    destruct Hb as (Ht & Hp & Hq). unfold batchQueued.
    repeat split; try done. intros Hi. by apply Hq in Hi. }
  assert (vqueue g = [] -> appendsOnly g verts indices g') as Happ.
  { intros Hv. apply drawRaw_appends. left.
    intros (_ & _ & Hv' & _). done. }
  destruct (drawRaw_flush_count verts indices tex prog uniform g Hneed)
    as (Hcount & Hv & Hi).
  destruct (flush_empties g Hb) as (Ev & Ei).
  rewrite Ev in Hv, Hi. rewrite Ei in Hi. cbn [app] in Hv, Hi.
  rewrite offset_empty_queue in Hi. fold g' in Hcount, Hv, Hi.
  rewrite Hv, Hi, transformVerts_length.
  split; [done|]. split; [done|]. split; [done|]. split; [done|].
  split; [unfold STRIDE; lia|].
  split; [|split; [|split]].
  - intros H. by destruct (Hdraw H) as (_ & _ & ? & _).
  - intros H. by destruct (Hdraw H) as (_ & ? & _).
  - intros H. destruct (Hdraw H) as ((t0 & p0 & Ht & Hp & Hgl) & _).
    split; [by exists t0, p0|].
    rewrite Hgl. unfold flushGl. split; set_solver.
  - intros H. by destruct (Happ H) as (? & ? & _).
Qed.

(** ** The transform stack *)

Lemma clone_eq (a : Mat4) : Mat4.clone a = a.
Proof. by destruct a. Qed.

Lemma pop_snoc {A} (l : list A) (v : A) : pop (l ++ [v]) = Some (l, v).
Proof. unfold pop. by rewrite last_snoc, removelast_last. Qed.

Lemma pushTransform_transform g : transform (pushTransform g) = transform g.
Proof. done. Qed.

Lemma pushTransform_stack g :
  transformStack (pushTransform g) = transformStack g ++ [transform g].
Proof. unfold pushTransform. by rewrite clone_eq. Qed.

Lemma pushTransform_view g : batchView (pushTransform g) = batchView g.
Proof. done. Qed.

Lemma pushTransform_trace g : trace (pushTransform g) = trace g.
Proof. done. Qed.

Lemma pushTranslate_stack p g :
  transformStack (pushTranslate p g) = transformStack g.
Proof. unfold pushTranslate. destruct p; [by destruct (_ && _)|done]. Qed.

Lemma pushTranslate_view p g : batchView (pushTranslate p g) = batchView g.
Proof. unfold pushTranslate. destruct p; [by destruct (_ && _)|done]. Qed.

Lemma pushTranslate_trace p g : trace (pushTranslate p g) = trace g.
Proof. unfold pushTranslate. destruct p; [by destruct (_ && _)|done]. Qed.

Lemma pushScale_stack p g :
  transformStack (pushScale p g) = transformStack g.
Proof. unfold pushScale. destruct p; [by destruct (_ && _)|done]. Qed.

Lemma pushScale_view p g : batchView (pushScale p g) = batchView g.
Proof. unfold pushScale. destruct p; [by destruct (_ && _)|done]. Qed.

Lemma pushScale_trace p g : trace (pushScale p g) = trace g.
Proof. unfold pushScale. destruct p; [by destruct (_ && _)|done]. Qed.

Lemma pushRotateZ_stack a g :
  transformStack (pushRotateZ a g) = transformStack g.
Proof. unfold pushRotateZ. by destruct (negb _). Qed.

Lemma pushRotateZ_view a g : batchView (pushRotateZ a g) = batchView g.
Proof. unfold pushRotateZ. by destruct (negb _). Qed.

Lemma pushRotateZ_trace a g : trace (pushRotateZ a g) = trace g.
Proof. unfold pushRotateZ. by destruct (negb _). Qed.

Lemma pushMatrix_view m g : batchView (pushMatrix m g) = batchView g.
Proof. done. Qed.

Lemma popTransform_view g : batchView (popTransform g) = batchView g.
Proof.
  unfold popTransform. by destruct (pop (transformStack g)) as [[rest top]|].
Qed.

Lemma popTransform_trace g : trace (popTransform g) = trace g.
Proof.
  unfold popTransform. by destruct (pop (transformStack g)) as [[rest top]|].
Qed.

Lemma popTransform_snoc g st t :
  transformStack g = st ++ [t] ->
  transform (popTransform g) = t ∧ transformStack (popTransform g) = st.
Proof. intros H. unfold popTransform. by rewrite H, pop_snoc. Qed.

Create Rewrite HintDb gfx.

#[local] Hint Rewrite
  pushTransform_transform pushTransform_stack pushTransform_view
  pushTransform_trace
  pushTranslate_stack pushTranslate_view pushTranslate_trace
  pushScale_stack pushScale_view pushScale_trace
  pushRotateZ_stack pushRotateZ_view pushRotateZ_trace
  pushMatrix_view popTransform_view popTransform_trace : gfx.

(** C9: [pushTransform(); pushTranslate(v); popTransform()] leaves the
    active transform, and the stack, as they were, for every vector [v],
    the zero vector included. *)
Theorem push_translate_pop_restores g (v : Vec2) :
  transform (popTransform (pushTranslate (Some v) (pushTransform g)))
  = transform g
  ∧ transformStack (popTransform (pushTranslate (Some v) (pushTransform g)))
    = transformStack g.
Proof. apply popTransform_snoc. by autorewrite with gfx. Qed.

(** ** The primitive composer *)

(** The emit of [drawQuad], between [pushTransform] and [popTransform]. *)
Lemma drawQuad_eq conf g :
  ∃ g4 verts,
    batchView g4 = batchView g
    ∧ transformStack g4 = transformStack g ++ [transform g]
    ∧ trace g4 = trace g ++ [call_drawQuad conf]
    ∧ length verts = 4%nat
    ∧ drawQuad conf g
      = popTransform
          (drawRaw verts quadIndices (c_tex conf) (c_prog conf)
             (c_uniform conf) g4).
Proof.
  unfold drawQuad. eexists _, _.
  split; [|split; [|split; [|split; [|reflexivity]]]];
    by autorewrite with gfx.
Qed.

Lemma drawQuad_keeps conf : keepsTransform (drawQuad conf).
Proof.
  intros g. destruct (drawQuad_eq conf g) as (g4 & verts & _ & Hs & _ & _ & ->).
  destruct (drawRaw_frame verts quadIndices (c_tex conf) (c_prog conf)
              (c_uniform conf) g4) as (_ & Hs' & _).
  rewrite Hs in Hs'. by apply popTransform_snoc.
Qed.

Lemma keepsTransform_fold {A} (f : A -> GfxCtx -> GfxCtx) (l : list A) :
  (∀ a, keepsTransform (f a)) ->
  keepsTransform (fun g => fold_left (fun g a => f a g) l g).
Proof.
  intros Hf. induction l as [|a l IH]; intros g; cbn; [done|].
  destruct (IH (f a g)) as (-> & ->). apply Hf.
Qed.

Lemma drawLine_keeps p1 p2 conf : keepsTransform (drawLine p1 p2 conf).
Proof.
  intros g. unfold drawLine.
  by destruct (drawQuad_keeps
    {| c_pos := Some (Vec2.scaleN (Vec2.add p1 p2) half);
       c_width := Some (or_num (c_width conf) 1);
       c_height := Some (Vec2_dist p1 p2);
       c_scale := c_scale conf;
       c_rot := Some (Math_PI / 2 - Vec2_angle p1 p2);
       c_color := c_color conf; c_origin := Some (Named Origin.center);
       c_z := c_z conf; c_tex := c_tex conf; c_quad := c_quad conf;
       c_prog := c_prog conf; c_uniform := c_uniform conf |}
    (enter (call_drawLine p1 p2 conf) g)) as (-> & ->).
Qed.

Lemma drawRectStroke_keeps pos w h conf :
  keepsTransform (drawRectStroke pos w h conf).
Proof.
  intros g. unfold drawRectStroke.
  destruct (strokeCorners pos w h conf) as [[[p1 p2] p3] p4].
  destruct (drawLine_keeps p4 p1 conf
    (drawLine p3 p4 conf (drawLine p2 p3 conf (drawLine p1 p2 conf g))))
    as (-> & ->).
  destruct (drawLine_keeps p3 p4 conf
    (drawLine p2 p3 conf (drawLine p1 p2 conf g))) as (-> & ->).
  destruct (drawLine_keeps p2 p3 conf (drawLine p1 p2 conf g)) as (-> & ->).
  apply drawLine_keeps.
Qed.

Lemma drawFmtText_keeps ftext : keepsTransform (drawFmtText ftext).
Proof.
  unfold drawFmtText.
  apply (keepsTransform_fold (fun ch => drawQuad _)).
  intros ch. apply drawQuad_keeps.
Qed.

(** C10: every drawing operation leaves the active transform and the
    transform stack as they were before the call. *)
Theorem drawing_keeps_transform :
  (∀ conf, keepsTransform (drawQuad conf))
  ∧ (∀ tex conf, keepsTransform (drawTexture tex conf))
  ∧ (∀ pos w h conf, keepsTransform (drawRect pos w h conf))
  ∧ (∀ pos w h conf, keepsTransform (drawRectStroke pos w h conf))
  ∧ (∀ p1 p2 conf, keepsTransform (drawLine p1 p2 conf))
  ∧ (∀ txt font conf, keepsTransform (drawText txt font conf))
  ∧ (∀ ftext, keepsTransform (drawFmtText ftext)).
Proof.
  split; [|split; [|split; [|split; [|split; [|split]]]]].
  - apply drawQuad_keeps.
  - intros tex conf g. apply drawQuad_keeps.
  - intros pos w h conf g. apply drawQuad_keeps.
  - apply drawRectStroke_keeps.
  - apply drawLine_keeps.
  - intros txt font conf g. apply drawFmtText_keeps.
  - apply drawFmtText_keeps.
Qed.

(** ** Invariants of the queues

    A property of the queues and of the bound texture and program that
    [flush] and the emit of a quad preserve is preserved by every
    operation. *)

Section Invariants.

Variable P : GfxCtx -> Prop.
Hypothesis P_view : ∀ g1 g2, batchView g1 = batchView g2 -> P g1 -> P g2.
Hypothesis P_flush : ∀ g, P g -> P (flush g).
Hypothesis P_quad : ∀ verts tex prog uniform g,
  length verts = 4%nat ->
  P g -> P (drawRaw verts quadIndices tex prog uniform g).

Lemma inv_drawQuad conf g : P g -> P (drawQuad conf g).
Proof.
  intros H. destruct (drawQuad_eq conf g) as (g4 & verts & Hv & _ & _ & Hl & ->).
  eapply P_view; [symmetry; apply popTransform_view|].
  apply P_quad; [done|]. eapply P_view; [symmetry; apply Hv|done].
Qed.

Lemma inv_drawLine p1 p2 conf g : P g -> P (drawLine p1 p2 conf g).
Proof.
  intros H. unfold drawLine. apply inv_drawQuad.
  apply (P_view g); [reflexivity|exact H].
Qed.

Lemma inv_drawRectStroke pos w h conf g :
  P g -> P (drawRectStroke pos w h conf g).
Proof.
  intros H. unfold drawRectStroke.
  destruct (strokeCorners pos w h conf) as [[[p1 p2] p3] p4].
  by do 4 apply inv_drawLine.
Qed.

Lemma inv_fold {A} (f : A -> GfxCtx -> GfxCtx) (l : list A) g :
  (∀ a g, P g -> P (f a g)) ->
  P g -> P (fold_left (fun g a => f a g) l g).
Proof.
  intros Hf. revert g. induction l as [|a l IH]; intros g H; [exact H|].
  apply IH, Hf, H.
Qed.

Lemma inv_drawFmtText ftext g : P g -> P (drawFmtText ftext g).
Proof.
  unfold drawFmtText. apply (inv_fold (fun ch => drawQuad _)).
  intros ch g0. apply inv_drawQuad.
Qed.

Lemma inv_frameStart g : P g -> P (frameStart g).
Proof.
  intros H. unfold frameStart.
  assert (P (issue [gl_clear] g)) as H1.
  { apply (P_view g); [reflexivity|exact H]. }
  destruct (conf_clearColor gconf).
  - revert H1. apply P_view. reflexivity.
  - match goal with
    | |- P (set_transform _ (set_transformStack _ (set_drawCalls _ ?g1))) =>
        assert (P g1) as H2 by apply inv_drawQuad, H1;
        revert H2; generalize g1
    end.
    intros g1 H2. apply (P_view g1); [reflexivity|exact H2].
Qed.

Lemma inv_frameEnd g : P g -> P (frameEnd g).
Proof.
  intros H. unfold frameEnd. apply (P_view (flush g)); [reflexivity|].
  apply P_flush, H.
Qed.

Lemma inv_reachable g : P initCtx -> reachable g -> P g.
Proof.
  intros Hinit. induction 1.
  - by apply inv_frameEnd, inv_frameStart.
  - by apply inv_drawQuad.
  - by apply inv_drawFmtText.
  - by apply inv_drawFmtText.
  - by apply inv_drawQuad.
  - by apply inv_drawRectStroke.
  - by apply inv_drawLine.
  - by apply inv_frameStart.
  - by apply inv_frameEnd.
  - apply (P_view g); [reflexivity|assumption].
  - eapply P_view; [symmetry; apply popTransform_view|assumption].
  - apply (P_view g); [reflexivity|assumption].
  - apply (P_view g); [reflexivity|assumption].
Qed.

End Invariants.

Lemma batchReady_view g1 g2 :
  batchView g1 = batchView g2 -> batchReady g1 -> batchReady g2.
Proof. unfold batchView, batchReady. by intros [= -> -> -> ->]. Qed.

Lemma batchReady_flush g : batchReady g -> batchReady (flush g).
Proof.
  intros H. destruct (flush_empties g H) as (Hv & Hi).
  destruct (flush_frame g) as (_ & _ & Ht & Hp & _).
  destruct H as (? & ? & _). unfold batchReady.
  by rewrite Ht, Hp, Hv, Hi.
Qed.

Lemma batchReady_drawRaw verts indices tex prog uniform g :
  verts ≠ [] -> indices ≠ [] ->
  batchReady (drawRaw verts indices tex prog uniform g).
Proof.
  intros Hv Hi. rewrite drawRaw_eq. unfold batchReady. cbn.
  repeat split; try done.
  - intros H%app_eq_nil. destruct verts; [done|]. by destruct H.
  - intros H%app_eq_nil. destruct indices; [done|]. by destruct H.
Qed.

Lemma batchReady_init : batchReady initCtx.
Proof. unfold batchReady. cbn. repeat split; eauto. Qed.

(** A batch is in progress or none is in every state the exported
    operations reach. *)
Lemma reachable_batchReady g : reachable g -> batchReady g.
Proof.
  apply (inv_reachable batchReady).
  - apply batchReady_view.
  - apply batchReady_flush.
  - intros verts tex prog uniform g0 Hl _.
    apply batchReady_drawRaw; [by destruct verts|done].
  - apply batchReady_init.
Qed.

Lemma queueInv_view g1 g2 :
  batchView g1 = batchView g2 -> queueInv g1 -> queueInv g2.
Proof. unfold batchView, queueInv. by intros [= -> -> _ _]. Qed.

Lemma queueInv_empty g : vqueue g = [] -> iqueue g = [] -> queueInv g.
Proof. intros Hv Hi. unfold queueInv. rewrite Hv, Hi. by split. Qed.

Lemma queueInv_flush g : queueInv g -> queueInv (flush g).
Proof.
  intros H. destruct (flush_queues g) as [(Hv & Hi)|(Hv & Hi)].
  - unfold queueInv. by rewrite Hv, Hi.
  - by apply queueInv_empty.
Qed.

Lemma num_nat_add (a b : nat) :
  num (Z.of_nat a) + num (Z.of_nat b) = num (Z.of_nat (a + b)).
Proof. unfold num. by rewrite Nat2Z.inj_add, Z2Qc_inj_add. Qed.

Lemma queueInv_append g verts indices :
  queueInv g ->
  localIndices (length verts) indices ->
  ∀ t g',
    vqueue g' = vqueue g ++ transformVerts t verts ->
    iqueue g'
    = iqueue g ++ map (fun i => i + len (vqueue g) / num STRIDE) indices ->
    queueInv g'.
Proof.
  unfold queueInv, localIndices. change (Z.to_nat STRIDE) with 9%nat.
  intros (Hm & Hi) Hl t g' -> ->.
  rewrite length_app, transformVerts_length.
  rewrite (Nat.mul_comm 9), Nat.Div0.mod_add, Nat.div_add by done.
  split; [done|]. apply Forall_app. split.
  - eapply Forall_impl; [exact Hi|]. intros i (k & -> & Hk).
    exists k. split; [done|lia].
  - apply Forall_map. eapply Forall_impl; [exact Hl|].
    intros i (k & -> & Hk). cbn beta.
    exists (k + length (vqueue g) `div` 9)%nat.
    rewrite len_div_stride by done. rewrite num_nat_add. split; [done|lia].
Qed.

Lemma queueInv_drawRaw verts indices tex prog uniform g :
  queueInv g ->
  localIndices (length verts) indices ->
  queueInv (drawRaw verts indices tex prog uniform g).
Proof.
  intros H Hl. rewrite drawRaw_eq. cbn zeta.
  match goal with
  | |- context [if ?b then flush g else g] =>
      assert (queueInv (if b then flush g else g)) as H0
        by (destruct b; [by apply queueInv_flush|done]);
      revert H0; generalize (if b then flush g else g)
  end.
  intros g0 H0. by eapply queueInv_append.
Qed.

Lemma localIndices_quad : localIndices 4 quadIndices.
Proof.
  unfold localIndices, quadIndices.
  repeat apply Forall_cons_2; [..|apply Forall_nil_2].
  - exists 0%nat. split; [symmetry; apply Z2Qc_inj_0|lia].
  - exists 1%nat. split; [symmetry; apply Z2Qc_inj_1|lia].
  - exists 3%nat. split; [done|lia].
  - exists 1%nat. split; [symmetry; apply Z2Qc_inj_1|lia].
  - exists 2%nat. split; [symmetry; apply Z2Qc_inj_2|lia].
  - exists 3%nat. split; [done|lia].
Qed.

Lemma queueInv_quad verts tex prog uniform g :
  length verts = 4%nat ->
  queueInv g -> queueInv (drawRaw verts quadIndices tex prog uniform g).
Proof.
  intros Hl H. apply queueInv_drawRaw; [done|].
  rewrite Hl. apply localIndices_quad.
Qed.

(** The invariant of the queues holds in every state the exported
    operations reach. *)
Lemma reachable_queueInv g : reachable g -> queueInv g.
Proof.
  apply (inv_reachable queueInv).
  - apply queueInv_view.
  - apply queueInv_flush.
  - apply queueInv_quad.
  - by apply queueInv_empty.
Qed.

(** C4: [flush], an emit of local indices and every drawing operation
    preserve the invariant that the vertex queue holds whole vertices
    (9 floats each) and that every index in the index queue is smaller than
    the number of vertices in the vertex queue.  An emit appends its indices,
    each increased by the number of vertices in the queue when the appending
    starts, behind the indices already queued, which it leaves as they
    are. *)
Theorem queue_invariant_preserved :
  (∀ g, queueInv g -> queueInv (flush g))
  ∧ (∀ verts indices tex prog uniform g,
       queueInv g -> localIndices (length verts) indices ->
       queueInv (drawRaw verts indices tex prog uniform g))
  ∧ (∀ conf g, queueInv g -> queueInv (drawQuad conf g))
  ∧ (∀ tex conf g, queueInv g -> queueInv (drawTexture tex conf g))
  ∧ (∀ pos w h conf g, queueInv g -> queueInv (drawRect pos w h conf g))
  ∧ (∀ pos w h conf g,
       queueInv g -> queueInv (drawRectStroke pos w h conf g))
  ∧ (∀ p1 p2 conf g, queueInv g -> queueInv (drawLine p1 p2 conf g))
  ∧ (∀ txt font conf g, queueInv g -> queueInv (drawText txt font conf g))
  ∧ (∀ ftext g, queueInv g -> queueInv (drawFmtText ftext g))
  ∧ (∀ verts indices tex prog uniform g,
       let g0 :=
         if mustFlush g verts indices (default (defTex g) tex)
              (default (defProg g) prog) (default emptyUniform uniform)
         then flush g else g in
       (iqueue g0 = iqueue g ∨ iqueue g0 = [])
       ∧ iqueue (drawRaw verts indices tex prog uniform g)
         = iqueue g0
           ++ map (fun i => i + len (vqueue g0) / num STRIDE) indices
       ∧ (queueInv g ->
          len (vqueue g0) / num STRIDE
          = num (Z.of_nat (length (vqueue g0) `div` 9)))).
Proof.
  pose proof queueInv_view as Hview.
  pose proof queueInv_flush as Hflush.
  pose proof queueInv_quad as Hquad.
  split; [exact Hflush|].
  split; [apply queueInv_drawRaw|].
  split; [apply (inv_drawQuad queueInv Hview Hquad)|].
  split; [intros tex conf g; apply (inv_drawQuad queueInv Hview Hquad)|].
  split; [intros pos w h conf g; apply (inv_drawQuad queueInv Hview Hquad)|].
  split; [apply (inv_drawRectStroke queueInv Hview Hquad)|].
  split; [apply (inv_drawLine queueInv Hview Hquad)|].
  split; [intros txt font conf g;
          apply (inv_drawFmtText queueInv Hview Hquad)|].
  split; [apply (inv_drawFmtText queueInv Hview Hquad)|].
  intros verts indices tex prog uniform g g0. split; [|split].
  - subst g0. destruct (mustFlush _ _ _ _ _ _); [|by left].
    destruct (flush_queues g) as [(_ & ->)|(_ & ->)]; auto.
  - by rewrite drawRaw_eq.
  - intros H. apply len_div_stride.
    assert (queueInv g0) as (Hm & _); [|exact Hm].
    subst g0. destruct (mustFlush _ _ _ _ _ _); [by apply Hflush|done].
Qed.

(** ** A quad anchored by its centre *)

Lemma vqueue_popTransform g : vqueue (popTransform g) = vqueue g.
Proof.
  unfold popTransform. by destruct (pop (transformStack g)) as [[rest top]|].
Qed.

Lemma pushTranslate_zero g : pushTranslate (Some (vec2 0 0)) g = g.
Proof. unfold pushTranslate. cbn. by rewrite !bool_decide_eq_true_2. Qed.

Lemma pushScale_one g : pushScale (Some (vec2N 1)) g = g.
Proof. unfold pushScale. cbn. by rewrite !bool_decide_eq_true_2. Qed.

Lemma pushRotateZ_zero g : pushRotateZ 0 g = g.
Proof.
  unfold pushRotateZ, truthy. by rewrite bool_decide_eq_true_2.
Qed.

Lemma or_num_zero d : or_num (Some 0) d = d.
Proof. unfold or_num, truthy. by rewrite bool_decide_eq_true_2. Qed.

Lemma lastN_app {A} (l1 l2 : list A) n :
  length l2 = n -> lastN n (l1 ++ l2) = l2.
Proof.
  intros <-. unfold lastN. rewrite length_app.
  replace (length l1 + length l2 - length l2)%nat with (length l1) by lia.
  by rewrite drop_app_length.
Qed.

Lemma multVec2_identity p : Mat4.multVec2 Mat4.identity p = vec2V p.
Proof.
  unfold Mat4.multVec2, Mat4.get, vec2V, vec2. cbn [nth Mat4.m Mat4.identity]. f_equal; ring.
Qed.

Lemma or_num_ten d : or_num (Some (num 10)) d = num 10.
Proof.
  unfold or_num, truthy. rewrite bool_decide_eq_false_2; [done|].
  unfold num. rewrite <- Z2Qc_inj_0. by intros H%Z2Qc_inj.
Qed.

Lemma centred_offset (w h : number) :
  Vec2.scale (originPt (Named Origin.center))
    (Vec2.scaleN (vec2 w h) (- half)) = vec2 0 0.
Proof. unfold Vec2.scale, Vec2.scaleN, vec2. cbn. f_equal; ring. Qed.

(** The NDC positions of the corners of a quad of 10 by 10 drawn around
    the screen position (0, 0) in a 100x100 viewport. *)
Lemma centred_ndc (t : Mat4) (verts : list Vertex) z uv1 uv2 uv3 uv4 color :
  width = num 100 ->
  height = num 100 ->
  t = Mat4.identity ->
  verts =
    [ {| v_pos := vec3 (- num 10 / 2) (num 10 / 2) z;
         v_uv := uv1; v_color := color |};
      {| v_pos := vec3 (- num 10 / 2) (- num 10 / 2) z;
         v_uv := uv2; v_color := color |};
      {| v_pos := vec3 (num 10 / 2) (- num 10 / 2) z;
         v_uv := uv3; v_color := color |};
      {| v_pos := vec3 (num 10 / 2) (num 10 / 2) z;
         v_uv := uv4; v_color := color |} ] ->
  ndcCoords (transformVerts t verts) = squareCorners (vec2 (-1) 1) tenth.
Proof.
  intros Hw Hh -> ->. unfold transformVerts, toNDC.
  cbn [flat_map app vertexFloats ndcCoords v_pos].
  rewrite !multVec2_identity, Hw, Hh.
  unfold squareCorners, vec2V, vec2, vec3, Vec3.xy, vec2. cbn [Vec2.x Vec2.y Vec3.x Vec3.y].
  repeat f_equal; apply Qc_is_canon; reflexivity.
Qed.

(** C5 (amended): in a 100x100 viewport and under the identity transform,
    [drawQuad] with anchor "center", width 10, height 10, rotation 0 and
    position (0, 0) emits four vertices whose NDC positions are the corners
    of the square of half-extent 0.1 centred at (-1, 1), the NDC image of
    the screen position (0, 0). *)
Theorem drawQuad_centred_ndc g color z tex q prog uniform :
  width = num 100 ->
  height = num 100 ->
  transform g = Mat4.identity ->
  let g' := drawQuad (centredQuadConf color z tex q prog uniform) g in
  lastVertices 4 g' = squareCorners (vec2 (-1) 1) tenth
  ∧ CentredSquare (vec2 (-1) 1) tenth (lastVertices 4 g').
Proof.
  intros Hw Hh Ht g'.
  assert (lastVertices 4 g' = squareCorners (vec2 (-1) 1) tenth) as ->;
    [|by split].
  subst g'. unfold lastVertices, drawQuad, centredQuadConf.
  cbn [c_pos c_width c_height c_scale c_rot c_color c_origin c_z c_tex
       c_quad c_prog c_uniform default from_option id vec2S].
  rewrite or_num_zero, !or_num_ten, centred_offset.
  rewrite !pushTranslate_zero, pushRotateZ_zero, pushScale_one.
  rewrite vqueue_popTransform, drawRaw_eq. cbn [vqueue set_vqueue].
  rewrite lastN_app by (by rewrite transformVerts_length).
  eapply centred_ndc; [done|done| |reflexivity].
  match goal with
  | |- context [if ?b then _ else _] => destruct b
  end; [|done].
  match goal with
  | |- transform (flush ?x) = _ => by destruct (flush_frame x) as (-> & _)
  end.
Qed.

(** ** The stroked rectangle *)

Lemma lineCalls_app tr1 tr2 :
  lineCalls (tr1 ++ tr2) = lineCalls tr1 ++ lineCalls tr2.
Proof. unfold lineCalls. apply omap_app. Qed.

Lemma lineCalls_drawQuad conf g :
  lineCalls (trace (drawQuad conf g)) = lineCalls (trace g).
Proof.
  destruct (drawQuad_eq conf g) as (g4 & verts & _ & _ & Ht & _ & ->).
  rewrite popTransform_trace, drawRaw_trace, Ht, !lineCalls_app.
  destruct (mustFlush _ _ _ _ _ _); cbn; by rewrite !app_nil_r.
Qed.

Lemma lineCalls_drawLine p1 p2 conf g :
  lineCalls (trace (drawLine p1 p2 conf g))
  = lineCalls (trace g) ++ [(p1, p2)].
Proof.
  unfold drawLine. rewrite lineCalls_drawQuad. cbn [trace enter].
  by rewrite lineCalls_app.
Qed.

Lemma strokeCorners_bounds pos w h conf :
  let b := rectBounds pos w h (originPt (default DEF_ORIGIN (c_origin conf))) in
  strokeCorners pos w h conf
  = (vec2 (b_left b) (b_top b), vec2 (b_left b) (b_bottom b),
     vec2 (b_right b) (b_bottom b), vec2 (b_right b) (b_top b)).
Proof.
  unfold strokeCorners, rectBounds, Vec2.sub, Vec2.add, Vec2.scaleN,
    Vec2.scale, vec2, half.
  cbn [Vec2.x Vec2.y b_left b_top b_right b_bottom].
  repeat match goal with
         | |- (_, _) = (_, _) => f_equal
         | |- Vec2.mk _ _ = Vec2.mk _ _ => f_equal
         end; field; discriminate.
Qed.

(** C6 (amended): [drawRectStroke] makes exactly four calls of [drawLine],
    one per side of the rectangle placed by the anchor, in the order left,
    bottom, right, top; each starts where the one before ends, so they form
    a closed outline. *)
Theorem drawRectStroke_four_lines pos w h conf g :
  strokeOrder side_left side_bottom side_right side_top pos w h conf g.
Proof.
  unfold strokeOrder. cbn zeta.
  set (b := rectBounds pos w h
              (originPt (default DEF_ORIGIN (c_origin conf)))).
  unfold drawRectStroke. rewrite strokeCorners_bounds. fold b.
  eexists _, _, _, _. split; [|split; [|split; [|split; [|split]]]].
  - rewrite !lineCalls_drawLine, <- !app_assoc. reflexivity.
  - by left.
  - by left.
  - by right.
  - by right.
  - done.
Qed.

(** ** Text layout *)

(** Order and [Math.max] on rationals, by linear arithmetic. *)
Ltac qc_order :=
  unfold Math_max in *; repeat case_decide;
  try apply Qc_is_canon; unfold Qcle, Qclt in *; cbn [this Q2Qc] in *; lra.

Lemma len_nonneg {A} (l : list A) : 0 <= len l.
Proof.
  unfold len, num. rewrite <- Z2Qc_inj_0.
  apply (proj1 (Z2Qc_inj_le _ _)). lia.
Qed.

Lemma len_snoc {A} (l : list A) (a : A) : len (l ++ [a]) = len l + 1.
Proof.
  unfold len, num. rewrite length_app, Nat2Z.inj_add, Z2Qc_inj_add.
  change (Z.of_nat (length [a])) with 1%Z. by rewrite Z2Qc_inj_1.
Qed.

Lemma len_singleton {A} (a : A) : len [a] = 1.
Proof. unfold len, num. cbn. apply Z2Qc_inj_1. Qed.

Lemma pushToLast_snoc (c : string) init cur :
  pushToLast c (init ++ [cur]) = init ++ [cur ++ [c]].
Proof. unfold pushToLast. by rewrite pop_snoc. Qed.

Lemma maxLineWidth_snoc cw init cur :
  maxLineWidth cw (init ++ [cur])
  = Math_max (maxLineWidth cw init) (len cur * cw).
Proof. unfold maxLineWidth. by rewrite fold_left_app. Qed.

Lemma fold_max_ge (cw : number) (lines : list (list string)) acc :
  acc <= fold_left (fun acc line => Math_max acc (len line * cw)) lines acc.
Proof.
  revert acc. induction lines as [|l lines IH]; intros acc; cbn.
  - apply Qcle_refl.
  - eapply Qcle_trans; [|apply IH]. qc_order.
Qed.

Lemma maxLineWidth_nonneg cw lines : 0 <= maxLineWidth cw lines.
Proof. apply fold_max_ge. Qed.

(** One more cell on the current line. *)
Lemma max_step (a n cw : number) :
  0 <= a -> 0 <= n ->
  Math_max (Math_max a (n * cw)) (n * cw + cw) = Math_max a ((n + 1) * cw).
Proof.
  intros Ha Hn.
  replace ((n + 1) * cw) with (n * cw + cw) by ring.
  destruct (Qclt_le_dec cw 0) as [Hc|Hc].
  - assert (n * cw <= 0) as H1.
    { replace 0 with (n * 0) by ring.
      apply Qcmult_le_mono_nonneg_l; [done|by apply Qclt_le_weak]. }
    assert (n * cw + cw <= 0) as H2.
    { replace 0 with (0 + 0) by ring.
      apply Qcplus_le_compat; [done|by apply Qclt_le_weak]. }
    generalize dependent (n * cw + cw). generalize dependent (n * cw).
    intros. qc_order.
  - assert (n * cw <= n * cw + cw) as H1.
    { rewrite <- (Qcplus_0_r (n * cw)) at 1. by apply Qcplus_le_mono_l. }
    generalize dependent (n * cw + cw). generalize dependent (n * cw).
    intros. qc_order.
Qed.

Lemma layoutStep_inv wrap cw ch st char :
  LayoutInv cw ch st -> LayoutInv cw ch (layoutStep wrap cw ch st char).
Proof.
  intros (init & cur & Hl & Hx & Hw & Hh). unfold layoutStep.
  destruct (bool_decide (char = NL)) eqn:Enl; cbn [orb negb].
  - exists (flines st), []. cbn [flines curX tw th].
    rewrite maxLineWidth_snoc, len_snoc, len_nil, <- Hw, Hh.
    split; [done|]. split; [ring|]. split; [f_equal; ring|ring].
  - destruct (wraps wrap cw (curX st)).
    + exists (flines st), [char]. cbn [flines curX tw th].
      rewrite pushToLast_snoc. cbn [app].
      rewrite maxLineWidth_snoc, len_snoc, len_singleton, <- Hw, Hh.
      split; [done|]. split; [ring|]. split; [f_equal; ring|ring].
    + exists init, (cur ++ [char]). cbn [flines curX tw th].
      rewrite Hl, pushToLast_snoc, Hx, Hw, Hh, Hl.
      rewrite !maxLineWidth_snoc, !len_snoc.
      split; [done|]. split; [ring|]. split; [|done].
      apply max_step; [apply maxLineWidth_nonneg|apply len_nonneg].
Qed.

Lemma layout_inv wrap cw ch chars st :
  LayoutInv cw ch st ->
  LayoutInv cw ch (fold_left (layoutStep wrap cw ch) chars st).
Proof.
  revert st. induction chars as [|c chars IH]; intros st H; cbn; [done|].
  by apply IH, layoutStep_inv.
Qed.

Lemma fmtLayout_inv text font conf :
  LayoutInv (fmt_cw font conf) (fmt_ch font conf) (fmtLayout text font conf).
Proof.
  unfold fmtLayout. apply layout_inv. exists [], [].
  cbn [flines curX tw th app]. unfold maxLineWidth. cbn [fold_left].
  rewrite len_singleton, len_nil, Qcmult_0_l.
  split; [done|]. split; [done|]. split; [qc_order|ring].
Qed.

(** The lines hold the characters of the text, the line breaks left
    out. *)
Lemma layoutStep_chars wrap cw ch st char :
  flines st ≠ [] ->
  flines (layoutStep wrap cw ch st char) ≠ []
  ∧ concat (flines (layoutStep wrap cw ch st char))
    = concat (flines st) ++ filter (fun c => c ≠ NL) [char].
Proof.
  intros Hne. unfold layoutStep.
  destruct (exists_last Hne) as (init & cur & Hl).
  destruct (bool_decide (char = NL)) eqn:Enl; cbn [orb negb flines].
  - apply bool_decide_eq_true in Enl.
    rewrite filter_cons_False, filter_nil by (intros H; by apply H).
    split; [by destruct (flines st)|].
    by rewrite concat_app, !app_nil_r.
  - apply bool_decide_eq_false in Enl.
    rewrite filter_cons_True, filter_nil by done.
    destruct (wraps wrap cw (curX st)); cbn [flines].
    + rewrite pushToLast_snoc. cbn [app].
      split; [by destruct (flines st)|].
      by rewrite concat_app.
    + rewrite Hl, pushToLast_snoc.
      split; [by destruct init|].
      rewrite !concat_app. cbn [concat]. by rewrite !app_nil_r, app_assoc.
Qed.

Lemma layout_chars wrap cw ch chars st :
  flines st ≠ [] ->
  concat (flines (fold_left (layoutStep wrap cw ch) chars st))
  = concat (flines st) ++ filter (fun c => c ≠ NL) chars.
Proof.
  revert st. induction chars as [|c chars IH]; intros st Hne; cbn [fold_left].
  - by rewrite filter_nil, app_nil_r.
  - destruct (layoutStep_chars wrap cw ch st c Hne) as (Hne' & Hc).
    rewrite IH, Hc by done. rewrite <- app_assoc. f_equal.
    by rewrite <- filter_app.
Qed.

Lemma fmtLayout_chars text font conf :
  concat (flines (fmtLayout text font conf))
  = filter (fun c => c ≠ NL) (split_chars text).
Proof. unfold fmtLayout. by rewrite layout_chars. Qed.

(** The glyphs of a line are those of its characters that have one, in
    order. *)
Lemma concat_imap_ch (mapped : string -> Prop)
    `{!∀ c, Decision (mapped c)}
    (f : nat -> string -> list FormattedChar) (line : list string) :
  (∀ cn c, fc_ch <$> f cn c = if decide (mapped c) then [c] else []) ->
  fc_ch <$> concat (imap f line) = filter mapped line.
Proof.
  revert f. induction line as [|c line IH]; intros f Hf; [done|].
  rewrite imap_cons. cbn [concat]. rewrite fmap_app, Hf, IH.
  - rewrite filter_cons. by destruct (decide (mapped c)).
  - intros cn c'. apply Hf.
Qed.

Lemma lineChars_ch font conf tw ox oy offset pos ln line :
  fc_ch <$> lineChars font conf tw ox oy offset pos ln line
  = filter (hasGlyph font) line.
Proof.
  unfold lineChars. apply concat_imap_ch. intros cn c. unfold hasGlyph.
  destruct (font_map font !! c) as [qpos|] eqn:E.
  - rewrite decide_True by eauto. done.
  - rewrite decide_False; [done|]. by intros [? ?].
Qed.

Lemma concat_imap_lines (mapped : string -> Prop)
    `{!∀ c, Decision (mapped c)}
    (f : nat -> list string -> list FormattedChar)
    (lines : list (list string)) :
  (∀ ln line, fc_ch <$> f ln line = filter mapped line) ->
  fc_ch <$> concat (imap f lines) = filter mapped (concat lines).
Proof.
  revert f. induction lines as [|l lines IH]; intros f Hf; [done|].
  rewrite imap_cons. cbn [concat]. rewrite fmap_app, Hf, IH, filter_app.
  - done.
  - intros ln line. apply Hf.
Qed.

Lemma fmtText_chars text font conf :
  fc_ch <$> ft_chars (fmtText text font conf)
  = filter (hasGlyph font) (filter (fun c => c ≠ NL) (split_chars text)).
Proof.
  unfold fmtText. cbn [ft_chars]. rewrite <- (fmtLayout_chars text font conf).
  apply concat_imap_lines. intros ln line. apply lineChars_ch.
Qed.

(** Without size and scale in the configuration a character cell is the
    glyph cell of the font. *)
Lemma fmt_scale_default font :
  fmt_gh font ≠ 0 -> fmt_scale font noTextConf = vec2 1 1.
Proof.
  intros H. unfold fmt_scale.
  cbn [t_size t_scale noTextConf or_num or_scale vec2S].
  unfold vec2N, Vec2.scale, vec2. cbn [Vec2.x Vec2.y].
  f_equal; by field.
Qed.

Lemma fmt_cw_default font :
  fmt_gh font ≠ 0 -> fmt_cw font noTextConf = fmt_gw font.
Proof.
  intros H. unfold fmt_cw. rewrite fmt_scale_default by done.
  cbn [Vec2.x vec2]. ring.
Qed.

Lemma fmt_ch_default font :
  fmt_gh font ≠ 0 -> fmt_ch font noTextConf = fmt_gh font.
Proof.
  intros H. unfold fmt_ch. rewrite fmt_scale_default by done.
  cbn [Vec2.y vec2]. ring.
Qed.

Lemma fmtText_height text font conf :
  ft_height (fmtText text font conf)
  = len (flines (fmtLayout text font conf)) * fmt_ch font conf.
Proof.
  destruct (fmtLayout_inv text font conf) as (_ & _ & _ & _ & _ & H). done.
Qed.

Lemma fmtText_width_nowrap text font conf :
  or_num (t_width conf) 0 = 0 ->
  ft_width (fmtText text font conf)
  = maxLineWidth (fmt_cw font conf) (flines (fmtLayout text font conf)).
Proof.
  intros Hw.
  destruct (fmtLayout_inv text font conf) as (_ & _ & _ & _ & H & _).
  unfold fmtText. cbn [ft_width]. rewrite <- H.
  destruct (t_width conf) as [w|]; [|done].
  cbn [or_num] in Hw. destruct (truthy w) eqn:E; [|done].
  unfold truthy in E. apply negb_true_iff, bool_decide_eq_false in E. done.
Qed.

Lemma fmtText_width_wrap text font conf w :
  t_width conf = Some w -> w ≠ 0 ->
  ft_width (fmtText text font conf) = w.
Proof.
  intros Hw Hne. unfold fmtText. cbn [ft_width]. rewrite Hw.
  unfold truthy. by rewrite bool_decide_eq_false_2.
Qed.

Lemma flines_a_nl_b font :
  flines (fmtLayout text_a_nl_b font noTextConf) = [["a"]; ["b"]].
Proof. reflexivity. Qed.

Lemma flines_ab font :
  flines (fmtLayout text_ab font noTextConf) = [["a"; "b"]].
Proof. reflexivity. Qed.

Lemma flines_az font :
  flines (fmtLayout text_az font noTextConf) = [["a"; "z"]].
Proof. reflexivity. Qed.

Lemma len_two {A} (a b : A) : len [a; b] = 2.
Proof. unfold len, num. cbn. apply Z2Qc_inj_2. Qed.

(** The glyphs of a line of two characters that both have one. *)
Lemma lineChars_two font conf tw ox oy offset pos ln c1 c2 q1 q2 :
  font_map font !! c1 = Some q1 ->
  font_map font !! c2 = Some q2 ->
  ∃ g1 g2,
    lineChars font conf tw ox oy offset pos ln [c1; c2] = [g1; g2]
    ∧ fc_ch g1 = c1 ∧ fc_ch g2 = c2
    ∧ Vec2.x (fc_pos g2) = Vec2.x (fc_pos g1) + fmt_cw font conf.
Proof.
  intros H1 H2. unfold lineChars. rewrite !imap_cons. cbn [imap concat].
  unfold compose. rewrite H1, H2. cbn [app].
  eexists _, _. split; [reflexivity|].
  cbn [fc_ch fc_pos Vec2.x vec2]. split; [done|]. split; [done|].
  change (num (Z.of_nat 0)) with (Qc_of_Z 0).
  change (num (Z.of_nat 1)) with (Qc_of_Z 1).
  rewrite Z2Qc_inj_0, Z2Qc_inj_1. ring.
Qed.

(** The glyph of a line of two characters of which the first has one and
    the second has none. *)
Lemma lineChars_first font conf tw ox oy offset pos ln c1 c2 q1 :
  font_map font !! c1 = Some q1 ->
  font_map font !! c2 = None ->
  ∃ g1,
    lineChars font conf tw ox oy offset pos ln [c1; c2] = [g1]
    ∧ fc_ch g1 = c1.
Proof.
  intros H1 H2. unfold lineChars. rewrite !imap_cons. cbn [imap concat].
  unfold compose. rewrite H1, H2. cbn [app].
  eexists. split; reflexivity.
Qed.

Lemma fmtText_ab_chars font qa qb :
  font_map font !! "a" = Some qa ->
  font_map font !! "b" = Some qb ->
  ∃ ga gb,
    ft_chars (fmtText text_ab font noTextConf) = [ga; gb]
    ∧ fc_ch ga = "a" ∧ fc_ch gb = "b"
    ∧ Vec2.x (fc_pos gb)
      = Vec2.x (fc_pos ga) + fmt_cw font noTextConf.
Proof.
  intros Ha Hb. unfold fmtText. cbn [ft_chars]. rewrite flines_ab.
  rewrite imap_cons. cbn [imap concat]. rewrite app_nil_r.
  by eapply lineChars_two.
Qed.

Lemma fmtText_az_chars font qa :
  font_map font !! "a" = Some qa ->
  font_map font !! "z" = None ->
  ∃ ga, ft_chars (fmtText text_az font noTextConf) = [ga] ∧ fc_ch ga = "a".
Proof.
  intros Ha Hz. unfold fmtText. cbn [ft_chars]. rewrite flines_az.
  rewrite imap_cons. cbn [imap concat]. rewrite app_nil_r.
  by eapply lineChars_first.
Qed.

(** C7 (amended): the height [fmtText] returns is the number of lines times
    the line height.  The width it returns is the greatest width of a line
    when no wrap width is configured; when one is, it is that wrap width.
    So ["a\nb"] gives 2 lines and twice the line height, and ["ab"], on a
    font that has both characters and cells of positive size, gives 2
    glyphs, ["a"] then ["b"], the second further right. *)
Theorem fmtText_size text font conf :
  ft_height (fmtText text font conf)
  = len (flines (fmtLayout text font conf)) * fmt_ch font conf
  ∧ (t_width conf = None ∨ t_width conf = Some 0 ->
     ft_width (fmtText text font conf)
     = maxLineWidth (fmt_cw font conf) (flines (fmtLayout text font conf)))
  ∧ (∀ w, t_width conf = Some w -> w ≠ 0 ->
     ft_width (fmtText text font conf) = w)
  ∧ (flines (fmtLayout text_a_nl_b font noTextConf) = [["a"]; ["b"]]
     ∧ ft_height (fmtText text_a_nl_b font noTextConf)
       = 2 * fmt_ch font noTextConf)
  ∧ (∀ qa qb,
       font_map font !! "a" = Some qa ->
       font_map font !! "b" = Some qb ->
       0 < fmt_gw font -> fmt_gh font ≠ 0 ->
       ∃ ga gb,
         ft_chars (fmtText text_ab font noTextConf) = [ga; gb]
         ∧ fc_ch ga = "a" ∧ fc_ch gb = "b"
         ∧ Vec2.x (fc_pos ga) < Vec2.x (fc_pos gb)).
Proof.
  split; [apply fmtText_height|].
  split.
  { intros H. apply fmtText_width_nowrap.
    destruct H as [->| ->]; [done|apply or_num_zero]. }
  split; [apply fmtText_width_wrap|].
  split.
  { split; [apply flines_a_nl_b|].
    by rewrite fmtText_height, flines_a_nl_b, len_two. }
  intros qa qb Ha Hb Hgw Hgh.
  destruct (fmtText_ab_chars font qa qb Ha Hb)
    as (ga & gb & Hc & Hcha & Hchb & Hx).
  exists ga, gb. repeat split; try done.
  rewrite Hx, fmt_cw_default by done.
  rewrite <- (Qcplus_0_r (Vec2.x (fc_pos ga))) at 1.
  by apply Qcplus_lt_mono_l.
Qed.

(** C8 (amended): [fmtText] returns exactly one glyph for every character
    of the text that is not a line break and has an entry in the character
    map of the font, in the order of the text.  A character without an entry
    gives no glyph and no error, but is put on its line like the others and
    takes a cell there.  So ["az"], on a font that has ["a"] but not ["z"]
    and cells of positive size, gives the one glyph of ["a"] and a width of
    two cells. *)
Theorem fmtText_glyphs text font conf :
  fc_ch <$> ft_chars (fmtText text font conf)
  = filter (fun c => hasGlyph font c ∧ c ≠ NL) (split_chars text)
  ∧ concat (flines (fmtLayout text font conf))
    = filter (fun c => c ≠ NL) (split_chars text)
  ∧ (∀ qa,
       font_map font !! "a" = Some qa ->
       font_map font !! "z" = None ->
       0 < fmt_gw font -> fmt_gh font ≠ 0 ->
       ∃ ga,
         ft_chars (fmtText text_az font noTextConf) = [ga]
         ∧ fc_ch ga = "a"
         ∧ ft_width (fmtText text_az font noTextConf)
           = 2 * fmt_cw font noTextConf).
Proof.
  split; [|split].
  - rewrite fmtText_chars. apply list_filter_filter.
  - apply fmtLayout_chars.
  - intros qa Ha Hz Hgw Hgh.
    destruct (fmtText_az_chars font qa Ha Hz) as (ga & Hc & Hch).
    exists ga. split; [done|]. split; [done|].
    rewrite fmtText_width_nowrap by done. rewrite flines_az.
    unfold maxLineWidth. cbn [fold_left]. rewrite len_two.
    rewrite fmt_cw_default by done.
    assert (0 <= 2 * fmt_gw font) as H.
    { replace 0 with (2 * 0) by ring.
      apply Qcmult_le_mono_nonneg_l; [done|by apply Qclt_le_weak]. }
    generalize dependent (2 * fmt_gw font). intros. qc_order.
Qed.

End Renderer.

(** ** Concrete instances

    A renderer with a clear color, no scale and a drawing buffer of 100 by
    100.  [ex_rotateZ], [ex_dist], [ex_angle] and [ex_PI] stand for the
    trigonometric parameters; nothing below depends on their values. *)

Definition ex_gconf : GfxConf :=
  {| conf_clearColor := Some (rgba 0 0 0 1); conf_scale := None |}.

Definition ex_rotateZ (t : Mat4) (a : number) : Mat4 := t.
Definition ex_dist (p q : Vec2) : number := 0.
Definition ex_angle (p q : Vec2) : number := 0.
Definition ex_PI : number := Q2Qc (355 # 113).

Definition ex_init : GfxCtx := initCtx ex_gconf.

Definition ex_drawRaw := drawRaw ex_gconf (num 100) (num 100).

Definition ex_drawQuad := drawQuad ex_gconf (num 100) (num 100) ex_rotateZ.

Definition ex_drawRectStroke :=
  drawRectStroke ex_gconf (num 100) (num 100) ex_rotateZ ex_dist ex_angle
    ex_PI.

Definition ex_vertex : Vertex :=
  {| v_pos := vec3 0 0 1; v_uv := vec2 0 0; v_color := rgba 1 1 1 1 |}.



(** A state with one vertex and one index queued. *)
Definition ex_queued : GfxCtx :=
  set_vqueue [0; 0; 1; 0; 0; 1; 1; 1; 1] (set_iqueue [0] ex_init).

(** A state whose queues hold 1820 quads: 65520 floats and 10920
    indices. *)
Definition ex_full : GfxCtx :=
  set_vqueue (replicate (Z.to_nat 65520) 0)
    (set_iqueue (replicate (Z.to_nat 10920) 0) ex_init).

Definition ex_quad : list Vertex :=
  [ex_vertex; ex_vertex; ex_vertex; ex_vertex].

(** A font of 16 by 8 pixels with two cells, for ["a"] and ["b"]. *)
Definition ex_font : GfxFont :=
  {| font_tex := {| tex_id := 5; tex_width := num 16; tex_height := num 8 |};
     font_map := {[ "a" := vec2 0 0; "b" := vec2 half 0 ]};
     font_qw := half; font_qh := 1 |}.

(** The same font with its second cell given to the line break. *)
Definition ex_fontNL : GfxFont :=
  {| font_tex := {| tex_id := 5; tex_width := num 16; tex_height := num 8 |};
     font_map := {[ "a" := vec2 0 0; NL := vec2 half 0 ]};
     font_qw := half; font_qh := 1 |}.

(** A text configuration with a wrap width of 100. *)
Definition ex_wrapConf : DrawTextConf :=
  {| t_size := None; t_pos := None; t_scale := None; t_rot := None;
     t_color := None; t_origin := None; t_width := Some (num 100);
     t_z := None; t_prog := None |}.


Lemma ex_full_batchReady : batchReady ex_full.
Proof.
  unfold batchReady, ex_full. cbn [curTex curProg vqueue iqueue set_vqueue
    set_iqueue ex_init initCtx].
  split; [eauto|]. split; [eauto|].
  split; intros H; apply (f_equal length) in H;
    rewrite length_replicate in H; cbn [length] in H; lia.
Defined.

Lemma ex_full_overflows : Overflows ex_full ex_quad quadIndices.
Proof.
  left. unfold ex_full. cbn [vqueue set_vqueue].
  rewrite length_replicate. unfold QUEUE_COUNT, STRIDE. cbn [length ex_quad].
  lia.
Defined.

Lemma drawRaw_overflow_witness :
  let g' := ex_drawRaw ex_quad quadIndices None None None ex_full in
  flushCalls g' = S (flushCalls ex_full)
  ∧ iqueue g' = quadIndices
  ∧ length (vqueue g') = 36%nat
  ∧ drawElementsCounts (gl g')
    = drawElementsCounts (gl ex_full) ++ [length (iqueue ex_full)]
  ∧ gl_bufferSubData ARRAY_BUFFER (vqueue ex_full) ∈ gl g'.
Proof.
  intros g'.
  destruct (drawRaw_overflow ex_gconf (num 100) (num 100) ex_full ex_quad
              quadIndices None None None ex_full_batchReady
              ex_full_overflows)
    as (Hcount & _ & Hi & _ & Hlen & _ & Hde & Hgl & _).
  assert (vqueue ex_full ≠ []) as Hne.
  { intros H. apply (f_equal length) in H. unfold ex_full in H.
    cbn [vqueue set_vqueue] in H. rewrite length_replicate in H.
    cbn [length] in H. lia. }
  split; [exact Hcount|]. split; [exact Hi|]. split.
  - fold ex_drawRaw in Hlen. fold g' in Hlen.
    unfold STRIDE in Hlen. cbn [length ex_quad] in Hlen. lia.
  - split; [exact (Hde Hne)|]. exact (proj1 (proj2 (Hgl Hne))).
Defined.

Lemma flush_noop_or_one_draw_call_witness :
  flush ex_init = enter call_flush ex_init
  ∧ drawElementsCounts (gl (flush ex_queued)) = [1%nat]
  ∧ vqueue (flush ex_queued) = []
  ∧ iqueue (flush ex_queued) = []
  ∧ drawCalls (flush ex_queued) = 1%nat.
Proof.
  destruct (flush_noop_or_one_draw_call ex_init) as (Hnoop & _).
  destruct (flush_noop_or_one_draw_call ex_queued) as (_ & Hdraw).
  split.
  - apply Hnoop. left. reflexivity.
  - apply Hdraw.
    + discriminate.
    + discriminate.
    + eexists. reflexivity.
    + eexists. reflexivity.
Defined.

Lemma ex_init_queueInv : queueInv ex_init.
Proof. split; [reflexivity|constructor]. Defined.

Lemma queue_invariant_preserved_witness :
  queueInv (flush ex_init)
  ∧ queueInv (ex_drawQuad noConf ex_init)
  ∧ queueInv (ex_drawRectStroke (vec2 0 0) 2 2 noConf ex_init).
Proof.
  destruct (queue_invariant_preserved ex_gconf (num 100) (num 100)
              ex_rotateZ ex_dist ex_angle ex_PI)
    as (Hflush & _ & Hquad & _ & _ & Hstroke & _).
  split; [|split].
  - apply Hflush, ex_init_queueInv.
  - apply Hquad, ex_init_queueInv.
  - apply Hstroke, ex_init_queueInv.
Defined.

Lemma drawQuad_centred_ndc_witness :
  lastVertices 4
    (ex_drawQuad (centredQuadConf None None None None None None) ex_init)
  = squareCorners (vec2 (-1) 1) tenth.
Proof.
  apply (drawQuad_centred_ndc ex_gconf (num 100) (num 100) ex_rotateZ
           ex_init None None None None None None).
  - apply Qc_is_canon. reflexivity.
  - apply Qc_is_canon. reflexivity.
  - reflexivity.
Defined.

(** C5, as claimed: the four vertices are not the corners of the square
    of half-extent 0.1 centred at the NDC origin. *)
Lemma drawQuad_centred_not_at_origin :
  ¬ CentredSquare (vec2 0 0) tenth
      (lastVertices 4
         (ex_drawQuad (centredQuadConf None None None None None None)
            ex_init)).
Proof.
  intros [_ H].
  assert (vec2 tenth tenth ∈ squareCorners (vec2 0 0) tenth) as Hin.
  { apply (bool_decide_unpack _). vm_compute. exact I. }
  apply H in Hin. revert Hin.
  apply (bool_decide_unpack _). vm_compute. exact I.
Qed.

(** C6, as claimed: the four lines are not drawn in the order top, right,
    bottom, left; the first one is not the top side. *)
Lemma drawRectStroke_not_top_first :
  ¬ strokeOrder ex_gconf (num 100) (num 100) ex_rotateZ ex_dist ex_angle
      ex_PI side_top side_right side_bottom side_left
      (vec2 0 0) 2 2 noConf ex_init.
Proof.
  intros (e1 & e2 & e3 & e4 & Htr & H1 & _).
  vm_compute in Htr. injection Htr as <- _ _ _.
  revert H1. unfold isSide.
  apply (bool_decide_unpack _). vm_compute. exact I.
Qed.

Lemma fmtText_size_witness :
  ft_width (fmtText text_ab ex_font ex_wrapConf) = num 100
  ∧ ∃ ga gb,
      ft_chars (fmtText text_ab ex_font noTextConf) = [ga; gb]
      ∧ fc_ch ga = "a" ∧ fc_ch gb = "b"
      ∧ Vec2.x (fc_pos ga) < Vec2.x (fc_pos gb).
Proof.
  destruct (fmtText_size text_ab ex_font ex_wrapConf) as (_ & _ & Hw & _).
  destruct (fmtText_size text_ab ex_font noTextConf) as (_ & _ & _ & _ & Hab).
  split.
  - apply Hw; [reflexivity|].
    intros H. apply (f_equal this) in H. vm_compute in H. discriminate.
  - apply (Hab (vec2 0 0) (vec2 half 0)).
    + reflexivity.
    + reflexivity.
    + reflexivity.
    + intros H. apply (f_equal this) in H. vm_compute in H. discriminate.
Defined.

(** C7, as claimed: with a wrap width configured the returned width is not
    the greatest width of a line. *)
Lemma fmtText_width_not_max_when_wrapping :
  ft_width (fmtText text_ab ex_font ex_wrapConf)
  ≠ maxLineWidth (fmt_cw ex_font ex_wrapConf)
      (flines (fmtLayout text_ab ex_font ex_wrapConf)).
Proof. apply (bool_decide_unpack _). vm_compute. exact I. Qed.

Lemma fmtText_glyphs_witness :
  ∃ ga,
    ft_chars (fmtText text_az ex_font noTextConf) = [ga]
    ∧ fc_ch ga = "a"
    ∧ ft_width (fmtText text_az ex_font noTextConf)
      = 2 * fmt_cw ex_font noTextConf.
Proof.
  destruct (fmtText_glyphs text_az ex_font noTextConf) as (_ & _ & Haz).
  apply (Haz (vec2 0 0)).
  - reflexivity.
  - reflexivity.
  - reflexivity.
  - intros H. apply (f_equal this) in H. vm_compute in H. discriminate.
Defined.

(** C8, as claimed: a line break that has an entry in the character map
    gets no glyph. *)
Lemma fmtText_no_glyph_for_line_break :
  fc_ch <$> ft_chars (fmtText NL ex_fontNL noTextConf)
  ≠ filter (hasGlyph ex_fontNL) (split_chars NL).
Proof. apply (bool_decide_unpack _). vm_compute. exact I. Qed.
